(** * collab-time: overlap engine, team-state reconciler, identity resolver
      and session gate, embedded from the TypeScript sources.

    Layout of the development:
    - [Types]            the records of [@/types] as the sources use them;
    - [Js], [Json]       the JavaScript values and built-ins the sources rely on;
    - [Visualizer]       [src/components/timezone-visualizer.tsx], with
                         [Summary] for its overlap text;
    - [TeamStore]        the query-cache transforms of [src/app/[teamId]/page.tsx];
    - [LegacyClient]     the [useState] variant of [src/app/[teamId]/client.tsx];
    - [CurrentTeamUser]  [src/hooks/use-current-team-user.ts];
    - [SessionStore]     [src/lib/team-session.ts] and its session-storage twin;
    - [Selection]        the pair selection and select options of the visualizer;
    - [Reconciler]       the whole [onData] dispatch of [page.tsx];
    - [Collapse]         [toggleGroupCollapse] of [page.tsx];
    - [VisitedTeams]     the visited-teams hook;
    - [SessionWrites]    writing and clearing the client session;
    - [IdentitySteps]    the identity hook's operations as transitions.
    The second part states and proves the properties of the specification,
    the third those of the remaining code. *)

From Stdlib Require Import ZArith String Ascii List Lia.
From stdpp Require Import base tactics option list numbers strings pretty gmap sorting.

Open Scope Z_scope.

(** * Part I: the embedding *)

(** ** Data model *)

Module Types.

(** Modelled from the spec: the type declarations of [@/types], which are
    imported by every source file but are not among the sources.  The
    fields are those of the specification's data model under the names the
    sources read and write. *)

(** Modelled from the spec: [TeamMember] ([m.id], [member.name],
    [member.title], [m.timezone], [member.workingHoursStart],
    [member.workingHoursEnd], [m.groupId]).  The group reference is
    optional: [None] stands for [undefined]. *)
Record TeamMember := mkMember {
  id : string;
  name : string;
  title : string;
  timezone : string;
  workingHoursStart : Z;
  workingHoursEnd : Z;
  groupId : option string
}.

(** Modelled from the spec: [TeamGroup] ([g.id], [group.name], [a.order]). *)
Record TeamGroup := mkGroup {
  gid : string;
  gname : string;
  order : Z
}.

(** Modelled from the spec: [TeamRole], ["admin" | "member"]. *)
Inductive TeamRole := admin | member.

(** Modelled from the spec: [TeamSession], a token and a role. *)
Record TeamSession := mkSession { token : string; srole : TeamRole }.

(** Modelled from the spec: [Team], as the query cache holds it
    ([prev.team.name], [prev.team.members], [prev.team.groups]). *)
Record Team := mkTeam {
  tid : string;
  tname : string;
  members : list TeamMember;
  groups : list TeamGroup
}.

(** Modelled from the spec: the cached query result [{ team, role }] that
    [updateTeamCache] rewrites ([use-team-query] is not among the sources). *)
Record TeamData := mkTeamData {
  team : Team;
  role : TeamRole
}.

#[global] Instance TeamMember_eq_dec : EqDecision TeamMember.
Proof. solve_decision. Defined.
#[global] Instance TeamGroup_eq_dec : EqDecision TeamGroup.
Proof. solve_decision. Defined.
#[global] Instance TeamRole_eq_dec : EqDecision TeamRole.
Proof. solve_decision. Defined.

(** [{ ...m, groupId: g }] *)
Definition with_groupId (m : TeamMember) (g : option string) : TeamMember :=
  {| id := id m; name := name m; title := title m; timezone := timezone m;
     workingHoursStart := workingHoursStart m;
     workingHoursEnd := workingHoursEnd m; groupId := g |}.

(** [{ ...prev.team, members: ms }] *)
Definition with_members (t : Team) (ms : list TeamMember) : Team :=
  {| tid := tid t; tname := tname t; members := ms; groups := groups t |}.

(** [{ ...prev, team: t }] *)
Definition with_team (d : TeamData) (t : Team) : TeamData :=
  {| team := t; role := role d |}.

End Types.
Import Types.

(** ** JavaScript values the sources compute with *)

Module Js.

(** What [hours[h]] can read from an array created by
    [new Array(24).fill(false)] and written with [hours[h] = true]:
    a boolean, or [undefined] (a hole, or an index past the end). *)
Abbreviation cell := (option bool).

Definition truthy (c : cell) : bool :=
  match c with Some true => true | _ => false end.

(** [a && b]: the left operand when it is falsy, the right one otherwise. *)
Definition and (a b : cell) : cell := if truthy a then b else a.

(** [arr[h]] for an index [h] that is a natural number. *)
Definition get (arr : list cell) (h : nat) : cell := mjoin (arr !! h).

(** [arr[h] = v] for an integer [h].  Inside the array the slot is
    overwritten; past the end the array grows, the slots in between being
    holes; a negative [h] names an ordinary property and leaves every
    element as it was. *)
Definition set (arr : list cell) (h : Z) (v : bool) : list cell :=
  if h <? 0 then arr
  else
    let i := Z.to_nat h in
    if (i <? length arr)%nat then <[i := Some v]> arr
    else arr ++ replicate (i - length arr)%nat None ++ [Some v].

(** [!s] is false exactly for a non-empty string. *)
Definition nonempty (s : string) : bool :=
  match s with EmptyString => false | String _ _ => true end.

(** Truthiness of a [string | null] value. *)
Definition truthy_str (o : option string) : bool :=
  match o with Some s => nonempty s | None => false end.

End Js.

(** ** Overlap engine: [src/components/timezone-visualizer.tsx] *)

Module Visualizer.

Record Row := mkRow { rmember : TeamMember; hours : list Js.cell }.

(** [new Array(24).fill(false)] *)
Definition blankHours : list Js.cell := replicate 24 (Some false).

(** [for (let h = a; h < b; h++) { hours[h] = true; }] *)
Definition markRange (a b : Z) (hours : list Js.cell) : list Js.cell :=
  foldl (λ acc h, Js.set acc h true) hours (seqZ a (b - a)).

Section WithTimezones.

(** [convertHourToTimezone] of [@/lib/timezones] is imported by the
    visualizer but is not among the sources: it is a parameter here. *)
Variable convertHourToTimezone : Z → string → string → Z.

(** The body of the [members.map] callback of [memberRows]. *)
Definition memberHours (m : TeamMember) (viewerTimezone : string)
  : list Js.cell :=
  let hours := blankHours in
  let startInViewerTz :=
    convertHourToTimezone (workingHoursStart m) (timezone m) viewerTimezone in
  let endInViewerTz :=
    convertHourToTimezone (workingHoursEnd m) (timezone m) viewerTimezone in
  if startInViewerTz <=? endInViewerTz then
    markRange startInViewerTz endInViewerTz hours
  else
    markRange 0 endInViewerTz (markRange startInViewerTz 24 hours).

(** [memberRows]: empty while the viewer timezone is still [""]. *)
Definition memberRows (members : list TeamMember) (viewerTimezone : string)
  : list Row :=
  if negb (Js.nonempty viewerTimezone) then []
  else (λ m, mkRow m (memberHours m viewerTimezone)) <$> members.

End WithTimezones.

(** [memberRows.find((row) => row.member.id === activeId)], with
    [activeId : string | null]. *)
Definition selectedRow (rows : list Row) (activeId : option string)
  : option Row :=
  match activeId with
  | None => None
  | Some i => snd <$> list_find (λ r, id (rmember r) = i) rows
  end.

(** [selectedRowA?.hours ?? new Array(24).fill(false)] *)
Definition selectedHours (r : option Row) : list Js.cell :=
  match r with Some row => hours row | None => blankHours end.

(** [overlapHours] *)
Definition overlapHours (selectedRowA selectedRowB : option Row)
  : list Js.cell :=
  match selectedRowA, selectedRowB with
  | Some _, Some _ =>
      imap (λ hour _,
              Js.and (Js.get (selectedHours selectedRowA) hour)
                     (Js.get (selectedHours selectedRowB) hour))
           blankHours
  | _, _ => blankHours
  end.

End Visualizer.

(** ** Overlap summary text of the visualizer *)

Module Summary.

(** [arr.findIndex(Boolean)], counting from index [i]. *)
Fixpoint findIndex (arr : list Js.cell) (i : Z) : Z :=
  match arr with
  | [] => -1
  | c :: rest => if Js.truthy c then i else findIndex rest (i + 1)
  end.

(** [arr.lastIndexOf(true)] for an array whose first slot has index [i]:
    the greatest index holding exactly [true]. *)
Fixpoint lastIndexOf (arr : list Js.cell) (i : Z) : Z :=
  match arr with
  | [] => -1
  | c :: rest =>
      let later := lastIndexOf rest (i + 1) in
      if later =? -1 then
        (if bool_decide (c = Some true) then i else -1)
      else later
  end.

Definition noOverlapText : string := "No overlap in your time".

(** The separator of the template literal, byte for byte as in the source. *)
Definition separator : string := " â€“ ".

(** Occurrence of a byte in a string, to tell the two texts apart. *)
Fixpoint occurs (c : ascii) (s : string) : bool :=
  match s with
  | EmptyString => false
  | String c' s' => bool_decide (c = c') || occurs c s'
  end.

Section WithFormat.

(** [formatHour] of [@/lib/utils] is not among the sources. *)
Variable formatHour : Z → string.

(** The immediately-invoked arrow function rendering "Overlap: ...". *)
Definition overlapSummary (overlapHours : list Js.cell) : string :=
  let start := findIndex overlapHours 0 in
  let end_ := lastIndexOf overlapHours 0 in
  if (start =? -1) || (end_ =? -1) then noOverlapText
  else
    let endExclusive := end_ + 1 in
    formatHour start +:+ separator +:+ formatHour (Z.rem endExclusive 24).

End WithFormat.

End Summary.

(** ** Authoritative team state: [src/app/[teamId]/page.tsx] *)

Module TeamStore.

(** The cached value for one team; [None] is the [undefined] that every
    updater passes through ([if (!prev) return prev]). *)
Abbreviation Cache := (option TeamData).

(** [new Map(entries)]: entries are inserted left to right, a later entry
    replacing an earlier one with the same key. *)
Definition newMap {V} (entries : list (string * V)) : gmap string V :=
  foldl (λ acc kv, <[kv.1 := kv.2]> acc) ∅ entries.

(** [arr.filter(Boolean)] on an array of objects and [undefined]s. *)
Definition filterBoolean {V} (arr : list (option V)) : list V :=
  omap (λ x, x) arr.

(** [(m) => m.id === i] *)
Definition hasId (i : string) (m : TeamMember) : bool :=
  bool_decide (id m = i).

(** Updater of ["team.memberAdded"] (also the one of [handleMemberAdded]). *)
Definition memberAdded (newMember : TeamMember) (prev : Cache) : Cache :=
  match prev with
  | None => prev
  | Some d =>
      if existsb (hasId (id newMember)) (members (team d)) then prev
      else Some (with_team d
                   (with_members (team d) (members (team d) ++ [newMember])))
  end.

(** Updater of ["team.membersReordered"]. *)
Definition membersReordered (order : list string) (prev : Cache) : Cache :=
  match prev with
  | None => prev
  | Some d =>
      let map := newMap ((λ m, (id m, m)) <$> members (team d)) in
      Some (with_team d
              (with_members (team d)
                 (filterBoolean ((λ i, map !! i) <$> order))))
  end.

(** Updater of ["team.groupRemoved"]. *)
Definition groupRemoved (groupId_ : string) (prev : Cache) : Cache :=
  match prev with
  | None => prev
  | Some d =>
      Some (with_team d
        {| tid := tid (team d); tname := tname (team d);
           groups :=
             filter (λ g, gid g ≠ groupId_) (groups (team d));
           members :=
             (λ m, if bool_decide (groupId m = Some groupId_)
                   then with_groupId m None else m) <$> members (team d) |})
  end.

(** Updater inside [handleGroupRemoved], the local-action twin. *)
Definition handleGroupRemoved (groupId_ : string) (prev : Cache) : Cache :=
  match prev with
  | None => prev
  | Some d =>
      Some (with_team d
        {| tid := tid (team d); tname := tname (team d);
           groups :=
             filter (λ g, gid g ≠ groupId_) (groups (team d));
           (* Unassign members from the removed group *)
           members :=
             (λ m, if bool_decide (groupId m = Some groupId_)
                   then with_groupId m None else m) <$> members (team d) |})
  end.

(** *** The drag-into-group handler and its effects *)

(** [{ success: true, data } | { success: false, error }] *)
Inductive ActionResult := Success | Failure (error : string).

(** What the handler does to the outside, in the order it does it. *)
Inductive Effect :=
| CacheUpdated (now : Cache)
| UpdateMemberCalled (teamId token_ memberId : string) (newGroupId : string)
| ToastError (message : string)
| ToastSuccess (message : string).

Record World := mkWorld { cache : Cache; log : list Effect }.

(** A small state monad over [World] for the handler's statements. *)
Definition M (A : Type) : Type := World → A * World.
#[global] Instance M_ret : MRet M := λ A a w, (a, w).
#[global] Instance M_bind : MBind M :=
  λ A B k c w, let '(a, w') := c w in k a w'.
Definition emit (e : Effect) : M unit :=
  λ w, (tt, mkWorld (cache w) (log w ++ [e])).
Definition exec {A} (c : M A) (w : World) : World := snd (c w).

(** [updateTeamCache(teamId, updater)] *)
Definition updateTeamCache (updater : Cache → Cache) : M unit :=
  λ w, let c := updater (cache w) in
       (tt, mkWorld c (log w ++ [CacheUpdated c])).

Definition toast_error (msg : string) : M unit := emit (ToastError msg).
Definition toast_success (msg : string) : M unit := emit (ToastSuccess msg).

(** The values the [useCallback] closure captured at render time. *)
Record Closure := mkClosure {
  isAdmin : bool;
  session : option TeamSession;
  cmembers : list TeamMember;
  cgroups : list TeamGroup;
  teamId : string
}.

(** [team?.members ?? []] and [team?.groups ?? []] *)
Definition cachedMembers (data : Cache) : list TeamMember :=
  match data with Some d => members (team d) | None => [] end.
Definition cachedGroups (data : Cache) : list TeamGroup :=
  match data with Some d => groups (team d) | None => [] end.

(** What the render derives from the cached data:
    [team?.members ?? []], [team?.groups ?? []],
    [teamData?.role === "admin"]. *)
Definition render (teamId_ : string) (session_ : option TeamSession)
    (data : Cache) : Closure :=
  {| isAdmin := match data with
                | Some d => bool_decide (role d = admin) | None => false end;
     session := session_;
     cmembers := cachedMembers data;
     cgroups := cachedGroups data;
     teamId := teamId_ |}.

(** The two updaters the handler passes to [updateTeamCache]:
    [m.id === memberId ? { ...m, groupId: g } : m] over the members. *)
Definition assignGroup (memberId : string) (g : option string)
    (prev : Cache) : Cache :=
  match prev with
  | None => prev
  | Some d =>
      Some (with_team d
              (with_members (team d)
                 ((λ m, if hasId memberId m then with_groupId m g else m)
                    <$> members (team d))))
  end.

Section WithActions.

(** [updateMember] of [@/lib/actions], the request/response call. *)
Variable updateMember : string → string → string → string → ActionResult.

(** Whatever other updaters ran on the cache while the request was
    awaited (realtime deliveries, other local edits). *)
Variable whileAwaiting : Cache → Cache.

Definition await_updateMember (teamId_ token_ memberId g : string)
  : M ActionResult :=
  λ w, (updateMember teamId_ token_ memberId g,
        mkWorld (whileAwaiting (cache w))
                (log w ++ [UpdateMemberCalled teamId_ token_ memberId g])).

Definition handleMemberDroppedOnGroup (c : Closure)
    (memberId groupId_ : string) : M unit :=
  match isAdmin c, session c with
  | true, Some session_ =>
      match find (hasId memberId) (cmembers c) with
      | None => mret tt
      | Some member_ =>
          (* Skip if already in this group *)
          if bool_decide (groupId member_ = Some groupId_) then mret tt
          else
            let previousGroupId := groupId member_ in
            (* Optimistic update *)
            updateTeamCache (assignGroup memberId (Some groupId_)) ;;
            result ← await_updateMember (teamId c) (token session_)
                                        memberId groupId_ ;
            match result with
            | Success =>
                let group :=
                  find (λ g, bool_decide (gid g = groupId_)) (cgroups c) in
                toast_success
                  (name member_ +:+ " added to " +:+
                   match group with Some g => gname g | None => "group" end)
            | Failure error =>
                (* Revert on failure *)
                updateTeamCache (assignGroup memberId previousGroupId) ;;
                toast_error error
            end
      end
  | _, _ => toast_error "Admin access required"
  end.

End WithActions.

End TeamStore.

(** ** The [useState] store of [src/app/[teamId]/client.tsx] *)

Module LegacyClient.
Import TeamStore.

(** Updater of ["team.memberAdded"] (and of [handleMemberAdded]). *)
Definition memberAdded (newMember : TeamMember) (prev : list TeamMember)
  : list TeamMember :=
  (* Avoid duplicates (in case the current user added the member) *)
  if existsb (hasId (id newMember)) prev then prev
  else prev ++ [newMember].

(** Updater of ["team.membersReordered"]. *)
Definition membersReordered (order : list string) (prev : list TeamMember)
  : list TeamMember :=
  let map := newMap ((λ m, (id m, m)) <$> prev) in
  filterBoolean ((λ i, map !! i) <$> order).

Inductive Effect :=
| MembersSet (now : list TeamMember)
| ReorderCalled (teamId : string) (ids : list string)
| ToastError (message : string).

Record World := mkWorld { membersState : list TeamMember; log : list Effect }.

Definition setMembers (ms : list TeamMember) (w : World) : World :=
  mkWorld ms (log w ++ [MembersSet ms]).

Section WithActions.

(** [reorderMembers] of [@/lib/actions]. *)
Variable reorderMembersAction : string → list string → ActionResult.
(** Updaters applied to the state while the request was awaited. *)
Variable whileAwaiting : list TeamMember → list TeamMember.

(** [handleReorder], called from a render that saw [members]. *)
Definition handleReorder (teamId : string) (members : list TeamMember)
    (newOrder : list TeamMember) (w : World) : World :=
  let previous := members in
  let newOrderIds := id <$> newOrder in
  let w1 := setMembers newOrder w in
  let w2 := mkWorld (whileAwaiting (membersState w1))
                    (log w1 ++ [ReorderCalled teamId newOrderIds]) in
  match reorderMembersAction teamId newOrderIds with
  | Success => w2
  | Failure error =>
      let w3 := mkWorld (membersState w2) (log w2 ++ [ToastError error]) in
      (* revert on failure *)
      setMembers previous w3
  end.

End WithActions.

End LegacyClient.

(** ** Local identity resolver: [src/hooks/use-current-team-user.ts] *)

Module CurrentTeamUser.

Inductive Source := explicit | suggested.

Record CurrentTeamUserState := mkState {
  memberId : option string;
  source : option Source;
  dismissedSuggestions : list string
}.

Definition DEFAULT_STATE : CurrentTeamUserState :=
  {| memberId := None; source := None; dismissedSuggestions := [] |}.

(** [(m) => m.id === i] with [i : string]. *)
Definition hasId (i : string) (m : TeamMember) : bool :=
  bool_decide (id m = i).

(** [currentUser] *)
Definition currentUser (members : list TeamMember)
    (state : CurrentTeamUserState) : option TeamMember :=
  match memberId state with
  | Some i => if Js.nonempty i then find (hasId i) members else None
  | None => None
  end.

(** The updater [(prev) => ({ ...prev, memberId: null, source: null })]. *)
Definition clearSelection (prev : CurrentTeamUserState)
  : CurrentTeamUserState :=
  {| memberId := None; source := None;
     dismissedSuggestions := dismissedSuggestions prev |}.

(** The effect "If stored member no longer exists, clear the selection":
    the updater it hands to [setState], if any, for a render that saw
    [members] and [state]. *)
Definition clearingEffect (members : list TeamMember)
    (state : CurrentTeamUserState)
  : option (CurrentTeamUserState → CurrentTeamUserState) :=
  if Js.truthy_str (memberId state)
     && negb (bool_decide (is_Some (currentUser members state)))
     && bool_decide (0 < length members)%nat
  then Some clearSelection
  else None.

(** [setState(updater)] of [useLocalStorage] (the hook is not among the
    sources): the stored state becomes [updater prev]. *)
Definition runEffect
    (e : option (CurrentTeamUserState → CurrentTeamUserState))
    (stored : CurrentTeamUserState) : CurrentTeamUserState :=
  match e with Some updater => updater stored | None => stored end.

(** [suggestedUser], for the viewer timezone the hook resolved
    ([getUserTimezone()], or [""] where there is no [window]). *)
Definition suggestedUser (viewerTimezone : string)
    (members : list TeamMember) (state : CurrentTeamUserState)
  : option TeamMember :=
  (* Don't suggest if user already set *)
  if Js.truthy_str (memberId state) then None
  (* Don't suggest if no viewer timezone available *)
  else if negb (Js.nonempty viewerTimezone) then None
  else
    (* Find members with exact timezone match *)
    let exactMatches :=
      List.filter (λ m, bool_decide (timezone m = viewerTimezone)) members in
    (* Only suggest if exactly one match and not previously dismissed *)
    match exactMatches with
    | [match_] =>
        if negb (bool_decide (id match_ ∈ dismissedSuggestions state))
        then Some match_ else None
    | _ => None
    end.

(** [setCurrentUser(memberId, source)] *)
Definition setCurrentUser (memberId_ : option string) (source_ : Source)
    (prev : CurrentTeamUserState) : CurrentTeamUserState :=
  {| memberId := memberId_;
     source := if Js.truthy_str memberId_ then Some source_ else None;
     dismissedSuggestions := dismissedSuggestions prev |}.

(** [clearCurrentUser()] *)
Definition clearCurrentUser (prev : CurrentTeamUserState)
  : CurrentTeamUserState :=
  {| memberId := None; source := None;
     dismissedSuggestions := dismissedSuggestions prev |}.

(** [dismissSuggestion(memberId)] *)
Definition dismissSuggestion (memberId_ : string)
    (prev : CurrentTeamUserState) : CurrentTeamUserState :=
  {| memberId := memberId prev; source := source prev;
     dismissedSuggestions := dismissedSuggestions prev ++ [memberId_] |}.

(** [acceptSuggestion(memberId)] *)
Definition acceptSuggestion (memberId_ : string)
    (prev : CurrentTeamUserState) : CurrentTeamUserState :=
  setCurrentUser (Some memberId_) suggested prev.

(** [isCurrentUser(memberId)] *)
Definition isCurrentUser (state : CurrentTeamUserState)
    (memberId_ : string) : bool :=
  bool_decide (memberId state = Some memberId_).

End CurrentTeamUser.

(** ** JSON values and exceptions *)

Module Json.

(** What [JSON.parse] can return.  A number is kept as a decimal
    [mantissa * 10 ^ exponent]; an object is its list of fields in text
    order. *)
#[local] Unset Elimination Schemes.
Inductive JsonValue :=
| JNull
| JBool (b : bool)
| JNumber (mantissa exponent : Z)
| JString (s : string)
| JArray (items : list JsonValue)
| JObject (fields : list (string * JsonValue)).
#[local] Set Elimination Schemes.

(** A value read from a property: [None] is [undefined]. *)
Abbreviation JsValue := (option JsonValue).

(** Truthiness: [!value] holds exactly when this is [false]. *)
Definition truthy (v : JsValue) : bool :=
  match v with
  | None | Some JNull => false
  | Some (JBool b) => b
  | Some (JNumber m _) => negb (m =? 0)
  | Some (JString s) => Js.nonempty s
  | Some (JArray _) | Some (JObject _) => true
  end.

Definition typeof (v : JsValue) : string :=
  match v with
  | None => "undefined"
  | Some JNull | Some (JArray _) | Some (JObject _) => "object"
  | Some (JBool _) => "boolean"
  | Some (JNumber _ _) => "number"
  | Some (JString _) => "string"
  end.

(** [record.key] for a key that is neither an array index nor ["length"]
    (the sources read [token] and [role]).  In an object the last field
    of that name counts, as [JSON.parse] keeps the last duplicate. *)
Definition prop (v : JsonValue) (key : string) : JsValue :=
  match v with
  | JObject fields =>
      snd <$> find (λ kv, bool_decide (kv.1 = key)) (reverse fields)
  | _ => None
  end.

(** [a === "literal"] *)
Definition isString (v : JsValue) (s : string) : bool :=
  match v with Some (JString s') => bool_decide (s' = s) | _ => false end.

Inductive Exn :=
| SyntaxError (message : string)
| OtherError (message : string).

(** Outcome of a statement that may throw. *)
Inductive Res (A : Type) :=
| Returned (a : A)
| Thrown (e : Exn).
Arguments Returned {A} a.
Arguments Thrown {A} e.

#[global] Instance Res_ret : MRet Res := λ A a, Returned a.
#[global] Instance Res_bind : MBind Res :=
  λ A B k c, match c with Returned a => k a | Thrown e => Thrown e end.

(** [try { body } catch { handler }] *)
Definition try_catch {A} (body : Res A) (handler : Res A) : Res A :=
  match body with Returned a => Returned a | Thrown _ => handler end.

End Json.

(** ** Session/access gate storage: [src/lib/team-session.ts] and the
       session-storage module of the client *)

Module SessionStore.
Import Json.

(** [isTeamSession], identical in both modules. *)
Definition isTeamSession (value : JsonValue) : bool :=
  if negb (truthy (Some value))
     || negb (bool_decide (typeof (Some value) = "object"%string))
  then false
  else
    let record := value in
    bool_decide (typeof (prop record "token") = "string"%string)
    && (isString (prop record "role") "admin"
        || isString (prop record "role") "member").

(** The specification's wording of a well-formed stored session: an
    object with a string [token] whose [role] is ["admin"] or ["member"].
    It is compared with [isTeamSession] in the second part. *)
Definition IsSessionObject (v : JsonValue) : Prop :=
  (∃ fields, v = JObject fields)
  ∧ (∃ tok, prop v "token" = Some (JString tok))
  ∧ (prop v "role" = Some (JString "admin")
     ∨ prop v "role" = Some (JString "member")).

(** The browser's [sessionStorage]: its items, and whether access is
    denied (in which case every call throws). *)
Record Storage := mkStorage {
  items : gmap string string;
  denied : bool
}.

Definition getItem (st : Storage) (key : string) : Res (option string) :=
  if denied st then Thrown (OtherError "SecurityError")
  else Returned (items st !! key).

(** The request's cookie jar as [cookies()] yields it: name to value. *)
Abbreviation CookieStore := (gmap string string).

(** *** [src/lib/team-session.ts] (server, cookies) *)
Module Server.

Definition TEAM_SESSION_PREFIX : string := "collab-time-session:".

Definition getTeamSessionKey (teamId : string) : string :=
  TEAM_SESSION_PREFIX +:+ teamId.

Section WithBuiltins.

(** The built-in [JSON.parse]: a value, or a thrown [SyntaxError]. *)
Variable JSON_parse : string → Res JsonValue.
(** [await cookies()] of [next/headers]: the jar, or a thrown error
    when called outside a request. *)
Variable cookies : Res CookieStore.

Definition readTeamSession (teamId : string) : Res (option JsonValue) :=
  try_catch
    (cookieStore ← cookies;
     let raw := cookieStore !! getTeamSessionKey teamId in
     if negb (Js.truthy_str raw) then mret None
     else
       parsed ← JSON_parse (default ""%string raw);
       mret (if isTeamSession parsed then Some parsed else None))
    (mret None).

End WithBuiltins.

End Server.

(** *** The client module (session storage) *)
Module Client.

Definition TEAM_SESSION_PREFIX : string := "collab-time-team-session:".

Definition getTeamSessionKey (teamId : string) : string :=
  TEAM_SESSION_PREFIX +:+ teamId.

Section WithBuiltins.

Variable JSON_parse : string → Res JsonValue.
Variable sessionStorage : Storage.

Definition readTeamSession (teamId : string) : Res (option JsonValue) :=
  try_catch
    (raw ← getItem sessionStorage (getTeamSessionKey teamId);
     if negb (Js.truthy_str raw) then mret None
     else
       parsed ← JSON_parse (default ""%string raw);
       mret (if isTeamSession parsed then Some parsed else None))
    (mret None).

End WithBuiltins.

End Client.

End SessionStore.

(** ** Pair selection of the visualizer: [timezone-visualizer.tsx], the two
       [useState] initialisers and the [useMemo] computing the active pair *)

Module Selection.

(** [members[0]?.id ?? null] *)
Definition initialSelectedA (members : list TeamMember) : option string :=
  id <$> head members.

(** [members.find((m) => m.id !== first)?.id ?? null] with
    [first = members[0]?.id], which is [undefined] for an empty list. *)
Definition initialSelectedB (members : list TeamMember) : option string :=
  let first := id <$> head members in
  id <$> find (λ m, negb (bool_decide (Some (id m) = first))) members.

(** [selected && ids.includes(selected)] for [selected : string | null]. *)
Definition validSelection (selected : option string) (ids : list string) : bool :=
  match selected with
  | Some s => Js.nonempty s && bool_decide (s ∈ ids)
  | None => false
  end.

(** [ids.find((id) => id !== aValid) ?? null] *)
Definition firstOther (ids : list string) (aValid : option string)
  : option string :=
  find (λ i, negb (bool_decide (Some i = aValid))) ids.

(** The [useMemo] returning [[activeAId, activeBId]]. *)
Definition activeIds (members : list TeamMember)
    (selectedAId selectedBId : option string)
  : option string * option string :=
  let ids := id <$> members in
  let aValid :=
    if validSelection selectedAId ids then selectedAId else head ids in
  let bValid :=
    if validSelection selectedBId ids
       && negb (bool_decide (selectedBId = aValid))
    then selectedBId
    else firstOther ids aValid in
  let bValid :=
    if bool_decide (bValid = aValid) then firstOther ids aValid else bValid in
  (aValid, bValid).

(** The member lists offered by the two [select] elements. *)
Definition optionsA (members : list TeamMember)
    (activeAId activeBId : option string) : list TeamMember :=
  List.filter (λ m, bool_decide (Some (id m) = activeAId)
                    || negb (bool_decide (Some (id m) = activeBId))) members.
Definition optionsB (members : list TeamMember)
    (activeAId activeBId : option string) : list TeamMember :=
  List.filter (λ m, bool_decide (Some (id m) = activeBId)
                    || negb (bool_decide (Some (id m) = activeAId))) members.

End Selection.

(** ** Realtime reconciler: the [onData] dispatch of
       [src/app/[teamId]/page.tsx] with the refs and toasts it touches *)

Module Reconciler.
Import TeamStore.

(** [(g) => g.id === i] *)
Definition hasGid (i : string) (g : TeamGroup) : bool := bool_decide (gid g = i).

(** [{ ...group, order: index }] *)
Definition with_order (g : TeamGroup) (index : Z) : TeamGroup :=
  {| gid := gid g; gname := gname g; order := index |}.

(** [{ ...prev, team: { ...prev.team, groups: gs } }] and
    [{ ...prev, team: { ...prev.team, name } }] *)
Definition with_groups (d : TeamData) (gs : list TeamGroup) : TeamData :=
  with_team d {| tid := tid (team d); tname := tname (team d);
                 members := members (team d); groups := gs |}.
Definition with_name (d : TeamData) (n : string) : TeamData :=
  with_team d {| tid := tid (team d); tname := n;
                 members := members (team d); groups := groups (team d) |}.

(** Updater of ["team.memberRemoved"] as far as the cache goes (it is also
    the whole updater of [handleMemberRemoved]). *)
Definition memberRemoved (memberId : string) (prev : Cache) : Cache :=
  match prev with
  | None => prev
  | Some d =>
      Some (with_team d (with_members (team d)
              (List.filter (λ m, negb (hasId memberId m)) (members (team d)))))
  end.

(** Updater of ["team.memberUpdated"] and of [handleMemberUpdated]. *)
Definition memberUpdated (updatedMember : TeamMember) (prev : Cache) : Cache :=
  match prev with
  | None => prev
  | Some d =>
      Some (with_team d (with_members (team d)
              ((λ m, if hasId (id updatedMember) m then updatedMember else m)
                 <$> members (team d))))
  end.

(** Updater of ["team.nameUpdated"]. *)
Definition nameUpdated (name_ : string) (prev : Cache) : Cache :=
  match prev with
  | None => prev
  | Some d => Some (with_name d name_)
  end.

(** Updater of ["team.groupCreated"] and of [handleGroupAdded]. *)
Definition groupCreated (newGroup : TeamGroup) (prev : Cache) : Cache :=
  match prev with
  | None => prev
  | Some d =>
      if existsb (hasGid (gid newGroup)) (groups (team d)) then prev
      else Some (with_groups d (groups (team d) ++ [newGroup]))
  end.

(** Updater of ["team.groupUpdated"] and of [handleGroupUpdated]. *)
Definition groupUpdated (updatedGroup : TeamGroup) (prev : Cache) : Cache :=
  match prev with
  | None => prev
  | Some d =>
      Some (with_groups d
              ((λ g, if hasGid (gid updatedGroup) g then updatedGroup else g)
                 <$> groups (team d)))
  end.

(** Updater of ["team.groupsReordered"]: [index] is the position in the
    payload. *)
Definition groupsReordered (order_ : list string) (prev : Cache) : Cache :=
  match prev with
  | None => prev
  | Some d =>
      let map := newMap ((λ g, (gid g, g)) <$> groups (team d)) in
      Some (with_groups d
              (filterBoolean
                 (imap (λ index i,
                          match map !! i with
                          | Some group => Some (with_order group (Z.of_nat index))
                          | None => None
                          end) order_)))
  end.

(** A [sonner] toast: its text and the [id] option it was given. *)
Record Toast := mkToast { message : string; toastId : option string }.

(** What [onData] reads and writes besides its event: the cached team,
    [lastRemovalRef.current], the toasts shown so far, the [teamName] state
    and [previousNameRef.current]. *)
Record Page := mkPage {
  cache : Cache;
  lastRemoval : string * Z;
  toasts : list Toast;
  teamName : string;
  previousName : string
}.

Definition setCache (c : Cache) (p : Page) : Page :=
  mkPage c (lastRemoval p) (toasts p) (teamName p) (previousName p).
Definition toast_success (msg : string) (i : string) (p : Page) : Page :=
  mkPage (cache p) (lastRemoval p) (toasts p ++ [mkToast msg (Some i)])
         (teamName p) (previousName p).

(** The nine events [useRealtime] subscribes to, with their payloads. *)
Inductive Event :=
| MemberAdded (newMember : TeamMember)
| MemberRemoved (memberId : string)
| MemberUpdated (updatedMember : TeamMember)
| MembersReordered (order_ : list string)
| NameUpdated (name_ : string)
| GroupCreated (newGroup : TeamGroup)
| GroupUpdated (updatedGroup : TeamGroup)
| GroupRemoved (groupId_ : string)
| GroupsReordered (order_ : list string).

(** [onData({ event, data })].  [now] is what [Date.now()] returns in the
    de-duplication test and [stamp] what it returns when the removal is
    recorded. *)
Definition onData (now stamp : Z) (e : Event) (p : Page) : Page :=
  match e with
  | MemberAdded newMember =>
      toast_success (name newMember +:+ " joined the team")
                    ("member-added-" +:+ id newMember)
                    (setCache (memberAdded newMember (cache p)) p)
  | MemberRemoved memberId =>
      (* Dedupe rapid double-deliveries of the same removal event *)
      if bool_decide (fst (lastRemoval p) = memberId)
         && (now - snd (lastRemoval p) <? 1500)
      then p
      else
        match cache p with
        | None => p
        | Some d =>
            let p1 :=
              match find (hasId memberId) (members (team d)) with
              | Some member_ =>
                  toast_success (name member_ +:+ " left the team")
                                ("member-removed-" +:+ memberId)
                                (mkPage (cache p) (memberId, stamp) (toasts p)
                                        (teamName p) (previousName p))
              | None => p
              end in
            setCache (memberRemoved memberId (cache p)) p1
        end
  | MemberUpdated updatedMember =>
      setCache (memberUpdated updatedMember (cache p)) p
  | MembersReordered order_ =>
      setCache (membersReordered order_ (cache p)) p
  | NameUpdated name_ =>
      mkPage (nameUpdated name_ (cache p)) (lastRemoval p) (toasts p)
             name_ name_
  | GroupCreated newGroup => setCache (groupCreated newGroup (cache p)) p
  | GroupUpdated updatedGroup => setCache (groupUpdated updatedGroup (cache p)) p
  | GroupRemoved groupId_ => setCache (groupRemoved groupId_ (cache p)) p
  | GroupsReordered order_ => setCache (groupsReordered order_ (cache p)) p
  end.

(** A stream of deliveries, each with its two clock readings. *)
Definition deliver (events : list (Z * Z * Event)) (p : Page) : Page :=
  foldl (λ acc '(now, stamp, e), onData now stamp e acc) p events.

(** Ids are unique among the cached members and among the cached groups. *)
Definition UniqueIds (c : Cache) : Prop :=
  NoDup (id <$> cachedMembers c) ∧ NoDup (gid <$> cachedGroups c).

(** A reorder payload names no id twice. *)
Definition OrderWithoutRepeats (e : Event) : Prop :=
  match e with
  | MembersReordered order_ | GroupsReordered order_ => NoDup order_
  | _ => True
  end.

(** The de-duplication test of ["team.memberRemoved"]. *)
Definition suppressed (now : Z) (e : Event) (p : Page) : Prop :=
  match e with
  | MemberRemoved memberId =>
      fst (lastRemoval p) = memberId ∧ now - snd (lastRemoval p) < 1500
  | _ => False
  end.

(** [members.filter((m) => m.groupId === group.id).length], the count shown
    in a group header. *)
Definition memberCount (members : list TeamMember) (group : TeamGroup) : nat :=
  length (List.filter (λ m, bool_decide (groupId m = Some (gid group))) members).

End Reconciler.

(** ** Collapsed groups: [toggleGroupCollapse] of [page.tsx] *)

Module Collapse.

(** The members that stay visible when the groups in [collapsed] are
    folded: the ungrouped ones and those of the other groups. *)
Definition ungroupedCount (members : list TeamMember) : nat :=
  length (List.filter (λ m, negb (Js.truthy_str (groupId m))) members).

Definition visibleGroupedCount (members : list TeamMember)
    (collapsed : gset string) : nat :=
  length (List.filter
            (λ m, match groupId m with
                  | Some g =>
                      if negb (Js.nonempty g) then false
                      else negb (bool_decide (g ∈ collapsed))
                  | None => false
                  end) members).

(** The updater handed to [setCollapsedGroups]. *)
Definition toggleGroupCollapse (members : list TeamMember) (groupId_ : string)
    (prev : gset string) : gset string :=
  if bool_decide (groupId_ ∈ prev) then
    (* Expanding - always allowed *)
    prev ∖ {[groupId_]}
  else
    let collapsedAfter := prev ∪ {[groupId_]} in
    let totalVisibleAfter :=
      (ungroupedCount members + visibleGroupedCount members collapsedAfter)%nat in
    (* Only allow collapse if at least one member remains visible *)
    if (0 <? totalVisibleAfter)%nat then prev ∪ {[groupId_]} else prev.

(** [totalVisibleAfter] for a given set of collapsed groups. *)
Definition visibleCount (members : list TeamMember) (collapsed : gset string)
  : nat :=
  (ungroupedCount members + visibleGroupedCount members collapsed)%nat.

End Collapse.

(** ** Recently visited teams: the hook of [src/unnamed/part_002] *)

Module VisitedTeams.

Record VisitedTeam := mkVisited {
  vid : string;
  vname : string;
  vmemberCount : Z;
  lastVisited : string
}.

Definition MAX_VISITED_TEAMS : nat := 10.

(** [(t) => t.id === teamId] *)
Definition isTeam (teamId : string) (t : VisitedTeam) : bool :=
  bool_decide (vid t = teamId).

(** The updater of [saveVisitedTeam(teamId, memberCount, name?)]; [now] is
    [new Date().toISOString()]. *)
Definition saveVisitedTeam (now : string) (teamId : string) (memberCount : Z)
    (name_ : option string) (teams : list VisitedTeam) : list VisitedTeam :=
  let existingTeam := find (isTeam teamId) teams in
  let visitedTeam :=
    {| vid := teamId;
       vname := match name_ with
                | Some n => n
                | None => match existingTeam with
                          | Some t => vname t
                          | None => ""
                          end
                end;
       vmemberCount := memberCount;
       lastVisited := now |} in
  let newTeams := List.filter (λ t, negb (isTeam teamId t)) teams in
  (* Add to the beginning (most recent first); keep only the most recent *)
  take MAX_VISITED_TEAMS (visitedTeam :: newTeams).

(** The updater of [updateTeamName(teamId, name)]. *)
Definition updateTeamName (teamId name_ : string) (teams : list VisitedTeam)
  : list VisitedTeam :=
  (λ t, if isTeam teamId t
        then {| vid := vid t; vname := name_; vmemberCount := vmemberCount t;
                lastVisited := lastVisited t |}
        else t) <$> teams.

(** The updater of [removeVisitedTeam(teamId)]. *)
Definition removeVisitedTeam (teamId : string) (teams : list VisitedTeam)
  : list VisitedTeam :=
  List.filter (λ t, negb (isTeam teamId t)) teams.

(** [getTeamName(teamId)] *)
Definition getTeamName (visitedTeams : list VisitedTeam) (teamId : string)
  : string :=
  match find (isTeam teamId) visitedTeams with
  | Some t => vname t
  | None => ""
  end.

End VisitedTeams.

(** ** Writing and clearing the session: the client module of
       [src/unnamed/part_000] *)

Module SessionWrites.
Import Json SessionStore.

(** The [TeamSession] object as a JSON value. *)
Definition roleText (r : TeamRole) : string :=
  match r with admin => "admin" | member => "member" end.
Definition sessionJson (s : TeamSession) : JsonValue :=
  JObject [("token"%string, JString (token s));
           ("role"%string, JString (roleText (srole s)))].

Section WithBuiltins.

(** The built-in [JSON.stringify]. *)
Variable JSON_stringify : JsonValue → string.
(** Whether the browser refuses to store this entry ([QuotaExceededError]). *)
Variable quotaExceeded : string → string → bool.

(** [sessionStorage.setItem(key, value)] and [sessionStorage.removeItem(key)] *)
Definition setItem (st : Storage) (key value : string) : Res Storage :=
  if denied st then Thrown (OtherError "SecurityError")
  else if quotaExceeded key value then Thrown (OtherError "QuotaExceededError")
  else Returned (mkStorage (<[key := value]> (items st)) (denied st)).

Definition removeItem (st : Storage) (key : string) : Res Storage :=
  if denied st then Thrown (OtherError "SecurityError")
  else Returned (mkStorage (delete key (items st)) (denied st)).

(** [writeTeamSession(teamId, session)] *)
Definition writeTeamSession (st : Storage) (teamId : string) (s : TeamSession)
  : Res Storage :=
  setItem st (Client.getTeamSessionKey teamId) (JSON_stringify (sessionJson s)).

(** [clearTeamSession(teamId)] *)
Definition clearTeamSession (st : Storage) (teamId : string) : Res Storage :=
  removeItem st (Client.getTeamSessionKey teamId).

End WithBuiltins.

End SessionWrites.

(** ** Operations of the identity hook as a transition system *)

Module IdentitySteps.
Import CurrentTeamUser.

(** What can happen to the stored state: the four callbacks the hook
    returns, and the clearing effect running for the current member list. *)
Inductive Action :=
| SetCurrentUser (memberId_ : option string) (source_ : Source)
| ClearCurrentUser
| DismissSuggestion (memberId_ : string)
| AcceptSuggestion (memberId_ : string)
| ClearingEffect (members : list TeamMember).

Definition step (st : CurrentTeamUserState) (a : Action) : CurrentTeamUserState :=
  match a with
  | SetCurrentUser i src => setCurrentUser i src st
  | ClearCurrentUser => clearCurrentUser st
  | DismissSuggestion i => dismissSuggestion i st
  | AcceptSuggestion i => acceptSuggestion i st
  | ClearingEffect members => runEffect (clearingEffect members st) st
  end.

Definition run (actions : list Action) (st : CurrentTeamUserState)
  : CurrentTeamUserState :=
  foldl step st actions.

(** The provenance tag is there exactly when a member id is selected. *)
Definition SourceConsistent (st : CurrentTeamUserState) : Prop :=
  source st = None ↔ Js.truthy_str (memberId st) = false.

End IdentitySteps.

(** ** Concrete stand-ins for the imported helpers, for worked examples *)

Module Fixtures.

(** A fixed-offset reading of three zone names. *)
Definition utcOffset (tz : string) : Z :=
  if bool_decide (tz = "Asia/Tokyo"%string) then 9
  else if bool_decide (tz = "America/New_York"%string) then -5
  else 0.

(** A [convertHourToTimezone] for zones without daylight saving. *)
Definition convertFixedOffset (hour : Z) (fromTz toTz : string) : Z :=
  (hour - utcOffset fromTz + utcOffset toTz) `mod` 24.

(** A 24-hour [formatHour]: ["9:00"], ["17:00"]. *)
Definition formatHour24 (hour : Z) : string := pretty hour +:+ ":00".

Definition ann : TeamMember :=
  {| id := "m1"; name := "Ann"; title := "Engineer"; timezone := "UTC";
     workingHoursStart := 9; workingHoursEnd := 17; groupId := Some "g1"%string |}.

Definition kenji : TeamMember :=
  {| id := "m2"; name := "Kenji"; title := ""; timezone := "Asia/Tokyo";
     workingHoursStart := 9; workingHoursEnd := 18; groupId := None |}.

Definition nora : TeamMember :=
  {| id := "m3"; name := "Nora"; title := ""; timezone := "America/New_York";
     workingHoursStart := 8; workingHoursEnd := 8; groupId := Some "g1"%string |}.

(** An overlap mask that is true at 1 and at 22 only. *)
Definition splitMask : list Js.cell :=
  <[1%nat := Some true]> (<[22%nat := Some true]> (replicate 24 (Some false))).

Definition design : TeamGroup := {| gid := "g1"; gname := "Design"; order := 0 |}.
Definition platform : TeamGroup := {| gid := "g2"; gname := "Platform"; order := 1 |}.

Definition acme : TeamData :=
  {| team := {| tid := "t1"; tname := "Acme"; members := [ann; kenji; nora];
                groups := [design; platform] |};
     role := admin |}.

(** JSON text of a stored admin session, and a [JSON.parse] that knows
    this text and a few others and rejects everything else. *)
Definition quoted (s : string) : string :=
  String "034" (s +:+ String "034" EmptyString).

Definition adminSessionText : string :=
  "{" +:+ quoted "token" +:+ ":" +:+ quoted "tok-1" +:+ ","
      +:+ quoted "role" +:+ ":" +:+ quoted "admin" +:+ "}".

Definition ownerSessionText : string :=
  "{" +:+ quoted "token" +:+ ":" +:+ quoted "tok-1" +:+ ","
      +:+ quoted "role" +:+ ":" +:+ quoted "owner" +:+ "}".

Definition adminSession : Json.JsonValue :=
  Json.JObject [("token"%string, Json.JString "tok-1");
                ("role"%string, Json.JString "admin")].

Definition parseFixture (text : string) : Json.Res Json.JsonValue :=
  if bool_decide (text = adminSessionText) then Json.Returned adminSession
  else if bool_decide (text = ownerSessionText) then
    Json.Returned (Json.JObject [("token"%string, Json.JString "tok-1");
                                 ("role"%string, Json.JString "owner")])
  else if bool_decide (text = "null"%string) then Json.Returned Json.JNull
  else if bool_decide (text = "[]"%string) then Json.Returned (Json.JArray [])
  else Json.Thrown (Json.SyntaxError "Unexpected token").

(** A [JSON.stringify] that knows the admin session of the examples. *)
Definition stringifyFixture (v : Json.JsonValue) : string :=
  match v with
  | Json.JObject [(_, Json.JString "tok-1"%string); (_, Json.JString "admin"%string)] =>
      adminSessionText
  | _ => "null"
  end.

(** Three visits, most recent first. *)
Definition visits : list VisitedTeams.VisitedTeam :=
  [VisitedTeams.mkVisited "t1" "Acme" 3 "2025-01-03T10:00:00.000Z";
   VisitedTeams.mkVisited "t2" "Globex" 5 "2025-01-02T10:00:00.000Z";
   VisitedTeams.mkVisited "t3" "" 1 "2025-01-01T10:00:00.000Z"].

(** A full list of ten visits, with ids ["0"] to ["9"]. *)
Definition tenVisits : list VisitedTeams.VisitedTeam :=
  (λ k, VisitedTeams.mkVisited (pretty k) ("Team " +:+ pretty k) 1
          "2025-01-01T10:00:00.000Z") <$> seqZ 0 10.

(** The page right after Acme was fetched: nothing removed or toasted yet. *)
Definition freshPage : Reconciler.Page :=
  Reconciler.mkPage (Some acme) (""%string, 0) [] "Acme" "Acme".

(** The scenario store [{ members: [], groups: [] }]. *)
Definition emptyTeam : TeamData :=
  {| team := {| tid := "t0"; tname := ""; members := []; groups := [] |};
     role := member |}.

End Fixtures.

(** * Part II: properties *)

(** ** JavaScript helpers *)

Section JsFacts.

Lemma nonempty_true s : Js.nonempty s = true ↔ s ≠ ""%string.
Proof. destruct s; simpl; split; try done; intros _; discriminate. Qed.

Lemma nonempty_false s : Js.nonempty s = false ↔ s = ""%string.
Proof. destruct s; simpl; split; try done. Qed.

Lemma truthy_is_true c : Js.truthy c = true ↔ c = Some true.
Proof. destruct c as [[]|]; simpl; split; congruence. Qed.

(** An in-range write is a plain list update. *)
Lemma set_inside arr h v :
  0 ≤ h < Z.of_nat (length arr) →
  Js.set arr h v = <[Z.to_nat h := Some v]> arr.
Proof.
  intros [H0 H1]. unfold Js.set.
  destruct (Z.ltb_spec h 0); [lia|].
  destruct (Nat.ltb_spec (Z.to_nat h) (length arr)); [done|lia].
Qed.

End JsFacts.

(** ** Overlap engine *)

Section MaskFacts.
Import Visualizer.

(** Marking a list of in-range hours keeps the length and sets exactly
    those hours. *)
Lemma mark_all (hs : list Z) (hours : list Js.cell) :
  (∀ h, h ∈ hs → 0 ≤ h < Z.of_nat (length hours)) →
  length (foldl (λ acc h, Js.set acc h true) hours hs) = length hours
  ∧ ∀ i : nat,
      foldl (λ acc h, Js.set acc h true) hours hs !! i =
      if bool_decide (Z.of_nat i ∈ hs ∧ (i < length hours)%nat)
      then Some (Some true) else hours !! i.
Proof.
  revert hours. induction hs as [|h hs IH]; intros hours Hin; simpl.
  - by split.
  - assert (Hh : 0 ≤ h < Z.of_nat (length hours)) by (apply Hin; left).
    rewrite set_inside by done.
    destruct (IH (<[Z.to_nat h := Some true]> hours)) as [Hlen Hget].
    { intros k Hk. rewrite length_insert. apply Hin. by right. }
    rewrite length_insert in Hlen, Hget. split; [done|].
    intros i. rewrite Hget.
    destruct (decide (Z.of_nat i ∈ hs ∧ (i < length hours)%nat)) as [Hi|Hi].
    + rewrite !bool_decide_eq_true_2; [done| |done].
      destruct Hi; split; [by right|done].
    + rewrite (bool_decide_eq_false_2 _ Hi).
      destruct (decide (i = Z.to_nat h)) as [->|Hne].
      * rewrite list_lookup_insert_eq by lia.
        rewrite bool_decide_eq_true_2; [done|].
        split; [|lia]. rewrite Z2Nat.id by lia. left.
      * rewrite list_lookup_insert_ne by done.
        case_bool_decide as Hc; [|done].
        destruct Hc as [Hc Hlt]. apply elem_of_cons in Hc as [Hc|Hc].
        -- subst h. rewrite Nat2Z.id in Hne. done.
        -- destruct Hi. done.
Qed.

(** The [for] loop over [a, b) inside a 24-slot array. *)
Lemma markRange_inside (a b : Z) (hours : list Js.cell) :
  0 ≤ a → b ≤ Z.of_nat (length hours) →
  length (markRange a b hours) = length hours
  ∧ ∀ i : nat, (i < length hours)%nat →
      markRange a b hours !! i =
      if bool_decide (a ≤ Z.of_nat i < b)
      then Some (Some true) else hours !! i.
Proof.
  intros Ha Hb. unfold markRange.
  destruct (mark_all (seqZ a (b - a)) hours) as [Hlen Hget].
  { intros h Hh%elem_of_seqZ. lia. }
  split; [done|]. intros i Hi. rewrite Hget.
  destruct (decide (a ≤ Z.of_nat i < b)) as [Hr|Hr].
  - rewrite !bool_decide_eq_true_2; [done|done|].
    split; [|done]. apply elem_of_seqZ. lia.
  - rewrite !bool_decide_eq_false_2; [done|done|].
    intros [Hh%elem_of_seqZ _]. lia.
Qed.

(** A loop whose bounds coincide never runs. *)
Lemma markRange_empty (a : Z) (hours : list Js.cell) :
  markRange a a hours = hours.
Proof. unfold markRange. by rewrite Z.sub_diag. Qed.

Lemma blankHours_length : length blankHours = 24%nat.
Proof. reflexivity. Qed.

Lemma blankHours_lookup (i : nat) :
  (i < 24)%nat → blankHours !! i = Some (Some false).
Proof. intros. unfold blankHours. by apply lookup_replicate_2. Qed.

Lemma blankHours_get (i : nat) : Js.truthy (Js.get blankHours i) = false.
Proof.
  unfold Js.get. destruct (blankHours !! i) as [c|] eqn:E; [|done].
  apply lookup_replicate in E as [-> _]. done.
Qed.

End MaskFacts.

Section MemberMask.
Import Visualizer.

Variable convertHourToTimezone : Z → string → string → Z.

(** §4.1 of the specification: the converted hour is an hour of day. *)
Hypothesis convert_in_day :
  ∀ hour fromTz toTz, 0 ≤ convertHourToTimezone hour fromTz toTz < 24.

(** The mask of one member, whatever the list it sits in. *)
Lemma memberHours_window (m : TeamMember) (viewerTimezone : string) :
  let s := convertHourToTimezone (workingHoursStart m) (timezone m) viewerTimezone in
  let e := convertHourToTimezone (workingHoursEnd m) (timezone m) viewerTimezone in
  let mask := memberHours convertHourToTimezone m viewerTimezone in
  length mask = 24%nat
  ∧ ∀ h : nat, (h < 24)%nat →
      mask !! h =
      Some (Some (if s <=? e then bool_decide (s ≤ Z.of_nat h < e)
                  else bool_decide (s ≤ Z.of_nat h ∨ Z.of_nat h < e))).
Proof.
  intros s e mask. subst mask. unfold memberHours. fold s e.
  pose proof (convert_in_day (workingHoursStart m) (timezone m) viewerTimezone) as Hs.
  pose proof (convert_in_day (workingHoursEnd m) (timezone m) viewerTimezone) as He.
  fold s in Hs. fold e in He.
  destruct (Z.leb_spec s e) as [Hse|Hse].
  - destruct (markRange_inside s e blankHours) as [Hlen Hget];
      [lia|rewrite blankHours_length; lia|].
    split; [done|]. intros h Hh. rewrite Hget by done.
    rewrite blankHours_lookup by done. by case_bool_decide.
  - destruct (markRange_inside s 24 blankHours) as [Hlen1 Hget1];
      [lia|rewrite blankHours_length; lia|].
    destruct (markRange_inside 0 e (markRange s 24 blankHours)) as [Hlen2 Hget2];
      [lia|rewrite Hlen1, blankHours_length; lia|].
    rewrite Hlen1 in Hlen2, Hget2. split; [done|].
    intros h Hh. rewrite Hget2, Hget1 by done.
    rewrite blankHours_lookup by done.
    change (length blankHours) with 24%nat in Hh.
    repeat case_bool_decide; try done; lia.
Qed.

(** Until the viewer timezone is resolved there are no rows at all. *)
Lemma memberRows_unresolved (members : list TeamMember) :
  memberRows convertHourToTimezone members "" = [].
Proof. reflexivity. Qed.

(** C1.  For a resolved (non-empty) viewer timezone, the row that
    [memberRows] builds for each member carries a 24-slot boolean mask
    that is true exactly on the converted window: on [s, e) when
    [s <= e], and on [s, 24) together with [0, e) when [s > e]; every
    other hour is false. *)
Theorem member_mask_window (members : list TeamMember)
    (viewerTimezone : string) (i : nat) (m : TeamMember) :
  viewerTimezone ≠ ""%string →
  members !! i = Some m →
  let s := convertHourToTimezone (workingHoursStart m) (timezone m) viewerTimezone in
  let e := convertHourToTimezone (workingHoursEnd m) (timezone m) viewerTimezone in
  ∃ mask : list Js.cell,
    memberRows convertHourToTimezone members viewerTimezone !! i
      = Some (mkRow m mask)
    ∧ length mask = 24%nat
    ∧ (s ≤ e → ∀ h : nat, (h < 24)%nat →
         Js.get mask h = Some (bool_decide (s ≤ Z.of_nat h < e)))
    ∧ (e < s → ∀ h : nat, (h < 24)%nat →
         Js.get mask h
         = Some (bool_decide (s ≤ Z.of_nat h ≤ 23 ∨ 0 ≤ Z.of_nat h < e))).
Proof.
  intros Htz Hm s e.
  exists (memberHours convertHourToTimezone m viewerTimezone).
  destruct (memberHours_window m viewerTimezone) as [Hlen Hget].
  fold s e in Hget.
  split; [|split; [done|split]].
  - unfold memberRows. apply nonempty_true in Htz. rewrite Htz. simpl.
    by rewrite list_lookup_fmap, Hm.
  - intros Hse h Hh. unfold Js.get. rewrite Hget by done. simpl.
    destruct (Z.leb_spec s e); [done|lia].
  - intros Hse h Hh. unfold Js.get. rewrite Hget by done. simpl.
    destruct (Z.leb_spec s e); [lia|].
    f_equal. apply bool_decide_ext. lia.
Qed.

End MemberMask.

Section DegenerateWindow.
Import Visualizer.

Variable convertHourToTimezone : Z → string → string → Z.

(** Equal working-hour bounds convert to equal viewer-local hours. *)
Lemma equal_bounds_convert_equal (m : TeamMember) (viewerTimezone : string) :
  workingHoursStart m = workingHoursEnd m →
  convertHourToTimezone (workingHoursStart m) (timezone m) viewerTimezone
  = convertHourToTimezone (workingHoursEnd m) (timezone m) viewerTimezone.
Proof. by intros ->. Qed.

(** With coinciding converted bounds no slot is ever written. *)
Lemma degenerate_mask (m : TeamMember) (viewerTimezone : string) :
  convertHourToTimezone (workingHoursStart m) (timezone m) viewerTimezone
  = convertHourToTimezone (workingHoursEnd m) (timezone m) viewerTimezone →
  memberHours convertHourToTimezone m viewerTimezone = blankHours.
Proof.
  intros Heq. unfold memberHours. rewrite Heq, Z.leb_refl.
  apply markRange_empty.
Qed.

(** Reading one hour of the element-wise conjunction. *)
Lemma overlap_cell (A B : list Js.cell) (h : nat) :
  Js.get (imap (λ hour _, Js.and (Js.get A hour) (Js.get B hour)) blankHours) h
  = if decide (h < 24)%nat then Js.and (Js.get A h) (Js.get B h) else None.
Proof.
  unfold Js.get at 1. rewrite list_lookup_imap.
  destruct (decide (h < 24)%nat) as [Hh|Hh].
  - by rewrite blankHours_lookup.
  - rewrite lookup_ge_None_2; [done|]. rewrite blankHours_length. lia.
Qed.

(** A row whose mask is blank contributes no true hour, on either side. *)
Lemma blank_row_no_overlap (row : Row) (other : option Row) (h : nat) :
  hours row = blankHours →
  Js.truthy (Js.get (overlapHours (Some row) other) h) = false
  ∧ Js.truthy (Js.get (overlapHours other (Some row)) h) = false.
Proof.
  intros Hrow. destruct other as [o|]; unfold overlapHours, selectedHours.
  2: { split; apply blankHours_get. }
  rewrite !overlap_cell, Hrow.
  destruct (decide (h < 24)%nat); [|done].
  unfold Js.and. rewrite blankHours_get. split; [apply blankHours_get|].
  destruct (Js.truthy (Js.get (hours o) h)) eqn:Ho; [apply blankHours_get|done].
Qed.

(** C10.  A member whose working-hours bounds convert to the same
    viewer-local hour (as they do when [workingHoursStart] equals
    [workingHoursEnd]) gets the all-false 24-slot mask, and the pairwise
    overlap with any other row, on either side, has no true hour. *)
Theorem degenerate_window_never_working (m : TeamMember)
    (viewerTimezone : string) :
  convertHourToTimezone (workingHoursStart m) (timezone m) viewerTimezone
  = convertHourToTimezone (workingHoursEnd m) (timezone m) viewerTimezone →
  let row := mkRow m (memberHours convertHourToTimezone m viewerTimezone) in
  hours row = replicate 24 (Some false)
  ∧ ∀ (other : option Row) (h : nat),
      Js.truthy (Js.get (overlapHours (Some row) other) h) = false
      ∧ Js.truthy (Js.get (overlapHours other (Some row)) h) = false.
Proof.
  intros Heq row.
  assert (Hrow : hours row = blankHours) by by apply degenerate_mask.
  split; [done|]. intros other h. by apply blank_row_no_overlap.
Qed.

(** The row the visualizer selects is one of [memberRows], so its mask is
    the mask computed for its member. *)
Lemma selectedRow_hours (members : list TeamMember) (viewerTimezone : string)
    (activeId : option string) (row : Row) :
  selectedRow (memberRows convertHourToTimezone members viewerTimezone) activeId
  = Some row →
  rmember row ∈ members
  ∧ hours row = memberHours convertHourToTimezone (rmember row) viewerTimezone.
Proof.
  unfold selectedRow. destruct activeId as [i|]; [|done].
  intros ([k r] & Hfind & ->)%fmap_Some.
  apply list_find_Some in Hfind as (Hk & _ & _). simpl.
  unfold memberRows in Hk. destruct (negb _); [by rewrite lookup_nil in Hk|].
  rewrite list_lookup_fmap in Hk.
  apply fmap_Some in Hk as (m & Hm & ->). simpl.
  split; [|done]. by apply list_elem_of_lookup_2 in Hm.
Qed.

(** Selecting a degenerate member on either side empties the overlap. *)
Corollary degenerate_selection_no_overlap (members : list TeamMember)
    (viewerTimezone : string) (activeAId activeBId : option string)
    (row : Row) (h : nat) :
  let rows := memberRows convertHourToTimezone members viewerTimezone in
  selectedRow rows activeAId = Some row ∨ selectedRow rows activeBId = Some row →
  workingHoursStart (rmember row) = workingHoursEnd (rmember row) →
  Js.truthy (Js.get (overlapHours (selectedRow rows activeAId)
                                  (selectedRow rows activeBId)) h) = false.
Proof.
  intros rows Hsel Hsame.
  assert (Hblank : hours row = blankHours).
  { destruct Hsel as [Hsel|Hsel];
      apply selectedRow_hours in Hsel as [_ ->];
      by apply degenerate_mask, equal_bounds_convert_equal. }
  destruct Hsel as [-> | ->]; by apply blank_row_no_overlap.
Qed.

(** The same for the literal case of equal stored bounds. *)
Corollary equal_bounds_never_working (m : TeamMember)
    (viewerTimezone : string) :
  workingHoursStart m = workingHoursEnd m →
  memberHours convertHourToTimezone m viewerTimezone
  = replicate 24 (Some false).
Proof.
  intros H. apply degenerate_mask. by apply equal_bounds_convert_equal.
Qed.

End DegenerateWindow.

(** ** Overlap summary *)

Section SummaryFacts.
Import Summary.

Lemma findIndex_range (arr : list Js.cell) (i : Z) :
  findIndex arr i = -1 ∨ i ≤ findIndex arr i < i + Z.of_nat (length arr).
Proof.
  revert i. induction arr as [|c arr IH]; intros i; simpl; [by left|].
  destruct (Js.truthy c); [right; lia|].
  destruct (IH (i + 1)); [by left|right; lia].
Qed.

Lemma findIndex_none (arr : list Js.cell) (i : Z) :
  0 ≤ i →
  (findIndex arr i = -1 ↔ ∀ h : nat, arr !! h ≠ Some (Some true)).
Proof.
  revert i. induction arr as [|c arr IH]; intros i Hi; simpl.
  - split; [|done]. intros _ h. by rewrite lookup_nil.
  - destruct (Js.truthy c) eqn:Hc.
    + apply truthy_is_true in Hc as ->. split; [lia|].
      intros H. by specialize (H 0%nat).
    + rewrite IH by lia. split.
      * intros H [|h]; simpl; [|apply H].
        intros [= ->]. done.
      * intros H h. apply (H (S h)).
Qed.

Lemma findIndex_first (arr : list Js.cell) (i : Z) (first : nat) :
  arr !! first = Some (Some true) →
  (∀ j : nat, (j < first)%nat → arr !! j ≠ Some (Some true)) →
  findIndex arr i = i + Z.of_nat first.
Proof.
  revert i first. induction arr as [|c arr IH]; intros i first Hf Hmin.
  - by rewrite lookup_nil in Hf.
  - simpl. destruct first as [|first]; simpl in Hf.
    + injection Hf as ->. simpl. lia.
    + destruct (Js.truthy c) eqn:Hc.
      * apply truthy_is_true in Hc as ->.
        exfalso. apply (Hmin 0%nat); [lia|done].
      * rewrite (IH (i + 1) first Hf); [lia|].
        intros j Hj. apply (Hmin (S j)). lia.
Qed.

Lemma lastIndexOf_none (arr : list Js.cell) (i : Z) :
  0 ≤ i →
  (lastIndexOf arr i = -1 ↔ ∀ h : nat, arr !! h ≠ Some (Some true)).
Proof.
  revert i. induction arr as [|c arr IH]; intros i Hi; simpl.
  - split; [|done]. intros _ h. by rewrite lookup_nil.
  - destruct (Z.eqb_spec (lastIndexOf arr (i + 1)) (-1)) as [Hl|Hl].
    + rewrite (IH (i + 1)) in Hl by lia. case_bool_decide as Hc.
      * subst c. split; [lia|]. intros H. by specialize (H 0%nat).
      * split; [|done]. intros _ [|h]; simpl; [congruence|apply Hl].
    + split; [done|]. intros H. exfalso. apply Hl. apply (IH (i + 1)); [lia|].
      intros h. apply (H (S h)).
Qed.

Lemma lastIndexOf_last (arr : list Js.cell) (i : Z) (last : nat) :
  0 ≤ i →
  arr !! last = Some (Some true) →
  (∀ j : nat, (last < j)%nat → arr !! j ≠ Some (Some true)) →
  lastIndexOf arr i = i + Z.of_nat last.
Proof.
  revert i last. induction arr as [|c arr IH]; intros i last Hi Hl Hmax.
  - by rewrite lookup_nil in Hl.
  - simpl. destruct last as [|last]; simpl in Hl.
    + injection Hl as ->.
      assert (lastIndexOf arr (i + 1) = -1) as ->.
      { apply lastIndexOf_none; [lia|]. intros h. apply (Hmax (S h)). lia. }
      simpl. lia.
    + rewrite (IH (i + 1) last); [|lia|done|].
      * destruct (Z.eqb_spec (i + 1 + Z.of_nat last) (-1)); lia.
      * intros j Hj. apply (Hmax (S j)). lia.
Qed.

Lemma occurs_app c a b : occurs c (a +:+ b) = occurs c a || occurs c b.
Proof. induction a as [|c' a IH]; simpl; [done|]. by rewrite IH, orb_assoc. Qed.

(** The window text always contains the dash, the other text never does. *)
Lemma window_text_not_no_overlap (a b : string) :
  a +:+ separator +:+ b ≠ noOverlapText.
Proof.
  intros H. apply (f_equal (occurs "226"%char)) in H.
  rewrite !occurs_app in H.
  replace (occurs "226" separator) with true in H by (vm_compute; done).
  replace (occurs "226" noOverlapText) with false in H by (vm_compute; done).
  rewrite orb_true_l, orb_true_r in H. done.
Qed.

End SummaryFacts.

Section SummaryText.
Import Summary.

Variable formatHour : Z → string.

(** C5.  The summary is the "no overlap" text exactly when no slot of the
    mask is true; otherwise it renders the first true index and, as the
    exclusive end, the last true index plus one modulo 24, whatever lies
    between the two (no contiguity is assumed). *)
Theorem overlap_summary_first_last (mask : list Js.cell) :
  (overlapSummary formatHour mask = noOverlapText
   ↔ ∀ h : nat, mask !! h ≠ Some (Some true))
  ∧ ∀ first last : nat,
      mask !! first = Some (Some true) →
      (∀ j : nat, (j < first)%nat → mask !! j ≠ Some (Some true)) →
      mask !! last = Some (Some true) →
      (∀ j : nat, (last < j)%nat → mask !! j ≠ Some (Some true)) →
      overlapSummary formatHour mask
      = formatHour (Z.of_nat first) +:+ separator
        +:+ formatHour ((Z.of_nat last + 1) `mod` 24).
Proof.
  split.
  - unfold overlapSummary. split.
    + intros Htext.
      destruct (Z.eqb_spec (findIndex mask 0) (-1)) as [Hs|Hs]; simpl in Htext.
      * by apply (findIndex_none mask 0).
      * destruct (Z.eqb_spec (lastIndexOf mask 0) (-1)) as [He|He].
        -- by apply (lastIndexOf_none mask 0).
        -- by apply window_text_not_no_overlap in Htext.
    + intros Hnone. apply (findIndex_none mask 0) in Hnone; [|done].
      by rewrite Hnone.
  - intros first last Hf Hfmin Hl Hlmax. unfold overlapSummary.
    rewrite (findIndex_first mask 0 first Hf Hfmin).
    rewrite (lastIndexOf_last mask 0 last) by done.
    rewrite !Z.add_0_l.
    destruct (Z.eqb_spec (Z.of_nat first) (-1)); [lia|].
    destruct (Z.eqb_spec (Z.of_nat last) (-1)); [lia|]. simpl.
    by rewrite Z.rem_mod_nonneg by lia.
Qed.

End SummaryText.

(** ** Worked examples for the overlap engine *)

Section VisualizerExamples.
Import Visualizer Summary Fixtures.

Lemma convertFixedOffset_in_day hour fromTz toTz :
  0 ≤ convertFixedOffset hour fromTz toTz < 24.
Proof. unfold convertFixedOffset. apply Z.mod_pos_bound. lia. Qed.

(** Kenji works 9-18 in Tokyo; seen from New York that is 19-4, a window
    that wraps past midnight. *)
Lemma member_mask_window_witness :
  let s := convertFixedOffset 9 "Asia/Tokyo" "America/New_York" in
  let e := convertFixedOffset 18 "Asia/Tokyo" "America/New_York" in
  ∃ mask : list Js.cell,
    memberRows convertFixedOffset [ann; kenji; nora] "America/New_York" !! 1%nat
      = Some (mkRow kenji mask)
    ∧ length mask = 24%nat
    ∧ (s ≤ e → ∀ h : nat, (h < 24)%nat →
         Js.get mask h = Some (bool_decide (s ≤ Z.of_nat h < e)))
    ∧ (e < s → ∀ h : nat, (h < 24)%nat →
         Js.get mask h
         = Some (bool_decide (s ≤ Z.of_nat h ≤ 23 ∨ 0 ≤ Z.of_nat h < e))).
Proof.
  apply (member_mask_window convertFixedOffset convertFixedOffset_in_day
           [ann; kenji; nora] "America/New_York" 1 kenji).
  - discriminate.
  - reflexivity.
Defined.

Example kenji_seen_from_new_york :
  memberHours convertFixedOffset kenji "America/New_York"
  = replicate 4 (Some true) ++ replicate 15 (Some false)
    ++ replicate 5 (Some true).
Proof. vm_compute. reflexivity. Qed.

(** Nora's stored window is 8-8. *)
Lemma degenerate_window_never_working_witness :
  let row := mkRow nora (memberHours convertFixedOffset nora "UTC") in
  hours row = replicate 24 (Some false)
  ∧ ∀ (other : option Row) (h : nat),
      Js.truthy (Js.get (overlapHours (Some row) other) h) = false
      ∧ Js.truthy (Js.get (overlapHours other (Some row)) h) = false.
Proof.
  apply (degenerate_window_never_working convertFixedOffset nora "UTC").
  reflexivity.
Defined.

(** [splitMask] is true at 1 and at 22 only: the text spans 1 to 23. *)
Lemma overlap_summary_first_last_witness :
  overlapSummary formatHour24 splitMask
  = formatHour24 1 +:+ separator +:+ formatHour24 23.
Proof.
  apply (proj2 (overlap_summary_first_last formatHour24 splitMask) 1%nat 22%nat).
  - reflexivity.
  - intros j Hj. destruct j; [vm_compute; congruence|lia].
  - reflexivity.
  - intros j Hj.
    do 24 (destruct j as [|j]; [first [lia | vm_compute; congruence]|]).
    vm_compute. congruence.
Defined.

Example split_mask_text :
  overlapSummary formatHour24 splitMask = "1:00 â€“ 23:00"%string.
Proof. vm_compute. reflexivity. Qed.

Example blank_mask_text :
  overlapSummary formatHour24 blankHours = "No overlap in your time"%string.
Proof. vm_compute. reflexivity. Qed.

(** A window ending with the last hour of the day wraps its end to 0. *)
Example late_mask_text :
  overlapSummary formatHour24
    (replicate 20 (Some false) ++ replicate 4 (Some true))
  = "20:00 â€“ 0:00"%string.
Proof. vm_compute. reflexivity. Qed.

End VisualizerExamples.

(** ** Team state store: reordering *)

Section ReorderFacts.
Import TeamStore.

(** The id-to-member entries [new Map] is built from. *)
Abbreviation entriesOf ms := ((λ m : TeamMember, (id m, m)) <$> ms) (only parsing).

Lemma newMap_snoc {V} (entries : list (string * V)) k v :
  newMap (entries ++ [(k, v)]) = <[k := v]> (newMap entries).
Proof. unfold newMap. by rewrite foldl_app. Qed.

(** Whatever the map returns for an id is a stored member with that id. *)
Lemma newMap_lookup_Some (ms : list TeamMember) (i : string) (m : TeamMember) :
  newMap (entriesOf ms) !! i = Some m → m ∈ ms ∧ id m = i.
Proof.
  induction ms as [|x ms IH] using rev_ind; [done|].
  rewrite fmap_app. simpl. rewrite newMap_snoc.
  destruct (decide (id x = i)) as [<-|Hne].
  - rewrite lookup_insert_eq. intros [= <-]. split; [|done].
    apply elem_of_app. right. apply list_elem_of_singleton. done.
  - rewrite lookup_insert_ne by done. intros [Hin Hid]%IH.
    split; [|done]. apply elem_of_app. by left.
Qed.

(** The map misses exactly the ids no stored member has. *)
Lemma newMap_lookup_None (ms : list TeamMember) (i : string) :
  newMap (entriesOf ms) !! i = None ↔ i ∉ id <$> ms.
Proof.
  induction ms as [|x ms IH] using rev_ind.
  - split; [|done]. intros _ H. by apply not_elem_of_nil in H.
  - rewrite !fmap_app. simpl. rewrite newMap_snoc.
    rewrite elem_of_app, list_elem_of_singleton.
    destruct (decide (id x = i)) as [<-|Hne].
    + rewrite lookup_insert_eq. split; [done|]. intros H. destruct H. by right.
    + rewrite lookup_insert_ne by done. rewrite IH. split.
      * intros Hn [H|H]; [done|congruence].
      * intros Hn H. apply Hn. by left.
Qed.

(** With unique ids every stored member is what the map returns for it. *)
Lemma newMap_lookup_NoDup (ms : list TeamMember) (m : TeamMember) :
  NoDup (id <$> ms) → m ∈ ms → newMap (entriesOf ms) !! id m = Some m.
Proof.
  induction ms as [|x ms IH] using rev_ind; intros Hnd Hin.
  - by apply not_elem_of_nil in Hin.
  - rewrite fmap_app in Hnd. apply NoDup_app in Hnd as (Hnd & Hdisj & _).
    rewrite fmap_app. simpl. rewrite newMap_snoc.
    apply elem_of_app in Hin as [Hin|Hin].
    + rewrite lookup_insert_ne; [by apply IH|].
      intros Heq. apply (Hdisj (id m)).
      * by apply list_elem_of_fmap_2.
      * rewrite <- Heq. simpl. left.
    + apply list_elem_of_singleton in Hin as ->. by rewrite lookup_insert_eq.
Qed.

(** The reordered list, read off the order list one id at a time. *)
Lemma reorder_ids (ms : list TeamMember) (order : list string) :
  id <$> LegacyClient.membersReordered order ms
  = filter (λ i, i ∈ id <$> ms) order.
Proof.
  unfold LegacyClient.membersReordered, filterBoolean.
  induction order as [|i order IH]; [done|].
  rewrite fmap_cons. simpl. rewrite filter_cons.
  destruct (newMap (entriesOf ms) !! i) as [m|] eqn:E; simpl.
  - pose proof (newMap_lookup_Some _ _ _ E) as [Hin Hid].
    rewrite decide_True.
    + rewrite Hid. f_equal. exact IH.
    + rewrite <- Hid. by apply list_elem_of_fmap_2.
  - apply newMap_lookup_None in E. by rewrite decide_False.
Qed.

Lemma reorder_elem (ms : list TeamMember) (order : list string) (m : TeamMember) :
  m ∈ LegacyClient.membersReordered order ms
  ↔ ∃ i, i ∈ order ∧ newMap (entriesOf ms) !! i = Some m.
Proof.
  unfold LegacyClient.membersReordered, filterBoolean.
  rewrite list_elem_of_omap. split.
  - intros (o & Ho & ->). apply list_elem_of_fmap in Ho as (i & Hi & Hin).
    by exists i.
  - intros (i & Hin & Hi). exists (Some m). split; [|done].
    apply list_elem_of_fmap. by exists i.
Qed.

(** The cache updater reorders the member list as the list updater does. *)
Lemma membersReordered_members (d : TeamData) (order : list string) :
  membersReordered order (Some d)
  = Some (with_team d (with_members (team d)
            (LegacyClient.membersReordered order (members (team d))))).
Proof. reflexivity. Qed.

End ReorderFacts.

Section Reordering.
Import TeamStore.

(** C2.  After ["team.membersReordered"] the member list is the order
    list with every id replaced by the stored member of that id: ids
    without a member are skipped, members the order list does not name
    are gone, nothing else changes.  So [[b, a]] applied to [[a, b]]
    gives [[b, a]], and [[b]] applied to [[a, b]] gives [[b]]. *)
Theorem members_reordered_follows_order (d : TeamData) (order : list string) :
  ∃ d' : TeamData,
    membersReordered order (Some d) = Some d'
    ∧ members (team d') = LegacyClient.membersReordered order (members (team d))
    ∧ id <$> members (team d')
      = filter (λ i, i ∈ id <$> members (team d)) order
    ∧ (∀ m, m ∈ members (team d') → m ∈ members (team d) ∧ id m ∈ order)
    ∧ (NoDup (id <$> members (team d)) →
       ∀ m, m ∈ members (team d) → id m ∈ order → m ∈ members (team d'))
    ∧ (groups (team d') = groups (team d) ∧ tname (team d') = tname (team d)
       ∧ tid (team d') = tid (team d) ∧ role d' = role d)
    ∧ (∀ a b : TeamMember, id a ≠ id b →
         membersReordered [id b; id a]
           (Some (with_team d (with_members (team d) [a; b])))
         = Some (with_team d (with_members (team d) [b; a]))
         ∧ membersReordered [id b]
             (Some (with_team d (with_members (team d) [a; b])))
           = Some (with_team d (with_members (team d) [b]))).
Proof.
  eexists. split; [apply membersReordered_members|]. simpl.
  split; [done|]. split; [apply reorder_ids|]. split; [|split; [|split]].
  - intros m (i & Hi & Hm)%reorder_elem.
    apply newMap_lookup_Some in Hm as [Hin <-]. done.
  - intros Hnd m Hin Hord. apply reorder_elem. exists (id m).
    split; [done|]. by apply newMap_lookup_NoDup.
  - done.
  - intros a b Hab. unfold newMap. simpl.
    rewrite lookup_insert_eq, lookup_insert_ne, lookup_insert_eq by done.
    done.
Qed.

Lemma members_reordered_follows_order_witness :
  ∃ d' : TeamData,
    membersReordered ["m3"; "gone"; "m1"]%string (Some Fixtures.acme) = Some d'
    ∧ id <$> members (team d') = ["m3"; "m1"]%string
    ∧ Fixtures.nora ∈ members (team d')
    ∧ membersReordered ["m2"; "m1"]%string
        (Some (with_team Fixtures.acme
                 (with_members (team Fixtures.acme) [Fixtures.ann; Fixtures.kenji])))
      = Some (with_team Fixtures.acme
                (with_members (team Fixtures.acme) [Fixtures.kenji; Fixtures.ann])).
Proof.
  destruct (members_reordered_follows_order Fixtures.acme
              ["m3"; "gone"; "m1"]%string)
    as (d' & Hrun & _ & Hids & _ & Hkeep & _ & Hex).
  exists d'. split; [exact Hrun|]. split; [|split].
  - rewrite Hids. vm_compute. reflexivity.
  - apply Hkeep.
    + apply (bool_decide_unpack _). vm_compute. exact I.
    + apply (bool_decide_unpack _). vm_compute. exact I.
    + apply (bool_decide_unpack _). vm_compute. exact I.
  - apply (Hex Fixtures.ann Fixtures.kenji). discriminate.
Defined.

End Reordering.

(** ** Team state store: removing a group *)

Section GroupRemoval.
Import TeamStore.

Lemma handleGroupRemoved_same (g : string) (prev : Cache) :
  handleGroupRemoved g prev = groupRemoved g prev.
Proof. reflexivity. Qed.

(** C3.  Removing group [g] (by realtime event or by the local handler)
    filters [g] out of the group list and keeps every member at its
    position: a member of [g] has its [groupId] cleared to [undefined],
    any other member is untouched, and no other field of any member, nor
    the team name, id or role, changes. *)
Theorem group_removed_unassigns_members (d : TeamData) (g : string) :
  ∃ d' : TeamData,
    groupRemoved g (Some d) = Some d'
    ∧ handleGroupRemoved g (Some d) = Some d'
    ∧ groups (team d') = filter (λ x, gid x ≠ g) (groups (team d))
    ∧ (∀ x, x ∈ groups (team d') ↔ x ∈ groups (team d) ∧ gid x ≠ g)
    ∧ length (members (team d')) = length (members (team d))
    ∧ id <$> members (team d') = id <$> members (team d)
    ∧ (∀ (i : nat) (m : TeamMember), members (team d) !! i = Some m →
         ∃ m', members (team d') !! i = Some m'
               ∧ id m' = id m ∧ name m' = name m ∧ title m' = title m
               ∧ timezone m' = timezone m
               ∧ workingHoursStart m' = workingHoursStart m
               ∧ workingHoursEnd m' = workingHoursEnd m
               ∧ (groupId m = Some g → groupId m' = None)
               ∧ (groupId m ≠ Some g → m' = m))
    ∧ tname (team d') = tname (team d) ∧ tid (team d') = tid (team d)
    ∧ role d' = role d.
Proof.
  eexists. split; [reflexivity|]. split; [reflexivity|]. simpl.
  split; [done|]. split; [|split; [|split; [|split]]].
  - intros x. rewrite list_elem_of_filter. tauto.
  - by rewrite length_fmap.
  - rewrite <- list_fmap_compose. apply list_fmap_ext.
    intros _ m _. simpl. by case_bool_decide.
  - intros i m Hm. rewrite list_lookup_fmap, Hm. simpl.
    eexists. split; [done|].
    case_bool_decide as Hg; simpl; repeat split; try done.
  - done.
Qed.

(** Design is removed from Acme: Ann and Nora are unassigned, Kenji is
    untouched, all three stay in place. *)
Lemma group_removed_unassigns_members_witness :
  ∃ d' : TeamData,
    groupRemoved "g1" (Some Fixtures.acme) = Some d'
    ∧ groups (team d') = [Fixtures.platform]
    ∧ ∃ ann', members (team d') !! 0%nat = Some ann'
              ∧ id ann' = "m1"%string ∧ name ann' = "Ann"%string
              ∧ groupId ann' = None.
Proof.
  destruct (group_removed_unassigns_members Fixtures.acme "g1")
    as (d' & Hrun & _ & Hgroups & _ & _ & _ & Hmembers & _).
  exists d'. split; [exact Hrun|]. split.
  - rewrite Hgroups. vm_compute. reflexivity.
  - destruct (Hmembers 0%nat Fixtures.ann eq_refl)
      as (ann' & Hat & Hid & Hname & _ & _ & _ & _ & Hclear & _).
    exists ann'. split; [exact Hat|]. split; [exact Hid|].
    split; [exact Hname|]. apply Hclear. reflexivity.
Defined.

End GroupRemoval.

(** ** Team state store: adding a member *)

Section MemberAddition.
Import TeamStore.

Lemma existsb_hasId (i : string) (ms : list TeamMember) :
  existsb (hasId i) ms = true ↔ i ∈ id <$> ms.
Proof.
  rewrite existsb_exists, list_elem_of_fmap. unfold hasId. split.
  - intros (m & Hin%list_elem_of_In & Hm%bool_decide_eq_true). by exists m.
  - intros (m & -> & Hin). exists m. split; [by apply list_elem_of_In|].
    by apply bool_decide_eq_true.
Qed.

Lemma memberAdded_members (m : TeamMember) (d : TeamData) :
  memberAdded m (Some d)
  = if existsb (hasId (id m)) (members (team d)) then Some d
    else Some (with_team d (with_members (team d)
                 (LegacyClient.memberAdded m (members (team d))))).
Proof.
  unfold memberAdded, LegacyClient.memberAdded.
  by destruct (existsb _ _).
Qed.

Lemma memberAdded_fresh (m : TeamMember) (d : TeamData) :
  id m ∉ id <$> members (team d) →
  memberAdded m (Some d)
  = Some (with_team d (with_members (team d) (members (team d) ++ [m]))).
Proof.
  intros Hfresh. unfold memberAdded.
  destruct (existsb _ _) eqn:E; [|done].
  by apply existsb_hasId in E.
Qed.

Lemma memberAdded_duplicate (m : TeamMember) (d : TeamData) :
  id m ∈ id <$> members (team d) → memberAdded m (Some d) = Some d.
Proof.
  intros Hdup%existsb_hasId. unfold memberAdded. by rewrite Hdup.
Qed.

Lemma memberAdded_has_id (m : TeamMember) (d : TeamData) :
  ∃ d', memberAdded m (Some d) = Some d'
        ∧ id m ∈ id <$> members (team d')
        ∧ (NoDup (id <$> members (team d)) → NoDup (id <$> members (team d'))).
Proof.
  destruct (decide (id m ∈ id <$> members (team d))) as [Hdup|Hfresh].
  - exists d. by rewrite memberAdded_duplicate.
  - eexists. split; [by apply memberAdded_fresh|]. simpl.
    rewrite fmap_app. simpl. split.
    + apply elem_of_app. right. left.
    + intros Hnd. apply NoDup_app. split; [done|]. split.
      * intros i Hi ->%list_elem_of_singleton. done.
      * apply NoDup_singleton.
Qed.

Lemma no_member_with_id (ms : list TeamMember) (i : string) :
  i ∉ id <$> ms → filter (λ x, id x = i) ms = [].
Proof.
  induction ms as [|x ms IH]; intros Hi; [done|].
  rewrite fmap_cons in Hi. apply not_elem_of_cons in Hi as [Hne Hi].
  rewrite filter_cons, decide_False by congruence. by apply IH.
Qed.

(** In a list with unique ids, an id that occurs is carried by one member. *)
Lemma one_member_per_id (ms : list TeamMember) (i : string) :
  NoDup (id <$> ms) → i ∈ id <$> ms →
  length (filter (λ x, id x = i) ms) = 1%nat.
Proof.
  induction ms as [|x ms IH]; intros Hnd Hin.
  - by apply not_elem_of_nil in Hin.
  - rewrite fmap_cons in Hnd, Hin. apply NoDup_cons in Hnd as [Hx Hnd].
    rewrite filter_cons. destruct (decide (id x = i)) as [<-|Hne].
    + simpl. by rewrite no_member_with_id.
    + apply IH; [done|]. apply elem_of_cons in Hin as [Hin|Hin]; congruence.
Qed.

End MemberAddition.

Section MemberAdded.
Import TeamStore.

(** C4.  ["team.memberAdded"] appends the payload when no stored member
    has its id and returns the cached value itself otherwise.  A second
    delivery with the same id therefore changes nothing, unique ids stay
    unique, and after the two deliveries a store whose ids were unique
    holds exactly one member with that id. *)
Theorem member_added_ignores_duplicate (d : TeamData) (m : TeamMember) :
  (id m ∉ id <$> members (team d) →
     memberAdded m (Some d)
     = Some (with_team d (with_members (team d) (members (team d) ++ [m]))))
  ∧ (id m ∈ id <$> members (team d) → memberAdded m (Some d) = Some d)
  ∧ cachedMembers (memberAdded m (Some d))
    = LegacyClient.memberAdded m (members (team d))
  ∧ (∀ again : TeamMember, id again = id m →
       memberAdded again (memberAdded m (Some d)) = memberAdded m (Some d))
  ∧ (NoDup (id <$> members (team d)) →
       ∃ d' : TeamData,
         memberAdded m (memberAdded m (Some d)) = Some d'
         ∧ NoDup (id <$> members (team d'))
         ∧ length (filter (λ x, id x = id m) (members (team d'))) = 1%nat).
Proof.
  split; [apply memberAdded_fresh|]. split; [apply memberAdded_duplicate|].
  destruct (memberAdded_has_id m d) as (d1 & Hd1 & Hin & Hnd).
  assert (Hagain : ∀ again, id again = id m →
            memberAdded again (memberAdded m (Some d)) = memberAdded m (Some d)).
  { intros again Hid. rewrite Hd1. apply memberAdded_duplicate. by rewrite Hid. }
  split; [|split; [done|]].
  - rewrite memberAdded_members. unfold LegacyClient.memberAdded.
    by destruct (existsb _ _).
  - intros Hnodup. exists d1. split; [by rewrite Hagain|].
    split; [by apply Hnd|]. apply one_member_per_id; [by apply Hnd|done].
Qed.

(** The scenario of the specification: an empty store, then the same
    [memberAdded] twice. *)
Lemma member_added_ignores_duplicate_witness :
  memberAdded Fixtures.ann (memberAdded Fixtures.ann (Some Fixtures.emptyTeam))
  = Some (with_team Fixtures.emptyTeam
            (with_members (team Fixtures.emptyTeam) [Fixtures.ann]))
  ∧ ∃ d' : TeamData,
      memberAdded Fixtures.ann
        (memberAdded Fixtures.ann (Some Fixtures.emptyTeam)) = Some d'
      ∧ NoDup (id <$> members (team d'))
      ∧ length (filter (λ x, id x = "m1"%string) (members (team d'))) = 1%nat.
Proof.
  destruct (member_added_ignores_duplicate Fixtures.emptyTeam Fixtures.ann)
    as (Hfresh & _ & _ & Hagain & Hone).
  split.
  - rewrite (Hagain Fixtures.ann eq_refl). apply Hfresh.
    simpl. apply not_elem_of_nil.
  - apply Hone. simpl. apply NoDup_nil_2.
Defined.

End MemberAdded.

(** ** Optimistic drag-into-group and its rollback *)

Section AssignGroupFacts.
Import TeamStore.

Lemma with_groupId_restore (m : TeamMember) (g : option string) :
  with_groupId (with_groupId m g) (groupId m) = m.
Proof. by destruct m. Qed.

Lemma with_members_same (d : TeamData) :
  with_team d (with_members (team d) (members (team d))) = d.
Proof. by destruct d as [[] ?]. Qed.

Lemma hasId_true (i : string) (m : TeamMember) : hasId i m = true ↔ id m = i.
Proof. unfold hasId. by rewrite bool_decide_eq_true. Qed.

Lemma cachedMembers_assignGroup (i : string) (g : option string) (c : Cache) :
  cachedMembers (assignGroup i g c)
  = (λ m, if hasId i m then with_groupId m g else m) <$> cachedMembers c.
Proof. by destruct c. Qed.

(** After the write every member with that id carries the new group. *)
Lemma assignGroup_sets (i : string) (g : option string) (c : Cache) (x : TeamMember) :
  x ∈ cachedMembers (assignGroup i g c) → id x = i → groupId x = g.
Proof.
  rewrite cachedMembers_assignGroup.
  intros (m & -> & Hin)%list_elem_of_fmap Hid.
  destruct (hasId i m) eqn:E; [done|].
  apply hasId_true in Hid. congruence.
Qed.

(** The write keeps the member, with only its group changed. *)
Lemma assignGroup_keeps (i : string) (g : option string) (c : Cache) (x : TeamMember) :
  x ∈ cachedMembers c → id x = i →
  with_groupId x g ∈ cachedMembers (assignGroup i g c).
Proof.
  intros Hin Hid%hasId_true. rewrite cachedMembers_assignGroup.
  apply list_elem_of_fmap. exists x. by rewrite Hid.
Qed.

Lemma find_hasId_first (i : string) (ms : list TeamMember) (m x : TeamMember) :
  NoDup (id <$> ms) → find (hasId i) ms = Some m →
  x ∈ ms → id x = i → x = m.
Proof.
  induction ms as [|y ms IH]; intros Hnd Hfind Hin Hid; [done|].
  rewrite fmap_cons in Hnd. apply NoDup_cons in Hnd as [Hy Hnd].
  simpl in Hfind. destruct (hasId i y) eqn:E.
  - injection Hfind as <-. apply hasId_true in E.
    apply elem_of_cons in Hin as [Hin|Hin]; [done|].
    exfalso. apply Hy. rewrite E, <- Hid. by apply list_elem_of_fmap_2.
  - apply elem_of_cons in Hin as [->|Hin]; [|by apply IH].
    apply hasId_true in Hid. congruence.
Qed.

(** With unique ids, writing back the captured group undoes the
    optimistic write exactly. *)
Lemma assignGroup_undo (i : string) (g : option string) (c : Cache) (m : TeamMember) :
  NoDup (id <$> cachedMembers c) →
  find (hasId i) (cachedMembers c) = Some m →
  assignGroup i (groupId m) (assignGroup i g c) = c.
Proof.
  destruct c as [d|]; [|done]. simpl. intros Hnd Hfind. f_equal.
  rewrite <- (with_members_same d) at 7.
  unfold with_team, with_members. do 2 f_equal.
  rewrite <- list_fmap_compose.
  etrans; [|apply list_fmap_id].
  apply list_fmap_ext. intros _ x Hx%list_elem_of_lookup_2. simpl.
  destruct (hasId i x) eqn:E.
  - assert (x = m) as ->.
    { apply (find_hasId_first i (members (team d))); try done.
      by apply hasId_true. }
    unfold hasId in *. simpl. rewrite E. apply with_groupId_restore.
  - by rewrite E.
Qed.

End AssignGroupFacts.

Section OptimisticDrop.
Import TeamStore.

Variable updateMember : string → string → string → string → ActionResult.
Variable whileAwaiting : Cache → Cache.

(** [toast.success] text of the handler. *)
Abbreviation addedText c m g :=
  (name m +:+ " added to " +:+
   match find (λ x, bool_decide (gid x = g)) (cgroups c) with
   | Some x => gname x | None => "group" end)%string (only parsing).

(** The whole run of the handler once its guards are passed. *)
Lemma handleMemberDroppedOnGroup_run (c : Closure) (memberId g : string)
    (w : World) (s : TeamSession) (m : TeamMember) :
  isAdmin c = true → session c = Some s →
  find (hasId memberId) (cmembers c) = Some m →
  groupId m ≠ Some g →
  exec (handleMemberDroppedOnGroup updateMember whileAwaiting c memberId g) w
  = let optimistic := assignGroup memberId (Some g) (cache w) in
    let awaited := whileAwaiting optimistic in
    let issued := [CacheUpdated optimistic;
                   UpdateMemberCalled (teamId c) (token s) memberId g] in
    match updateMember (teamId c) (token s) memberId g with
    | Success =>
        mkWorld awaited (log w ++ issued ++ [ToastSuccess (addedText c m g)])
    | Failure error =>
        let rolled := assignGroup memberId (groupId m) awaited in
        mkWorld rolled
                (log w ++ issued ++ [CacheUpdated rolled; ToastError error])
    end.
Proof.
  intros Hadmin Hsession Hfind Hother.
  unfold handleMemberDroppedOnGroup, exec.
  rewrite Hadmin, Hsession, Hfind.
  rewrite bool_decide_eq_false_2 by done.
  unfold mbind, M_bind, updateTeamCache, await_updateMember,
    toast_success, toast_error, emit. simpl.
  destruct (updateMember (teamId c) (token s) memberId g); simpl;
    by rewrite <- !app_assoc.
Qed.

(** C8.  For an admin session dragging a stored member [m] into a group
    [g] it is not in: the store is written first so that [m.groupId = g],
    then [updateMember] is called; on failure the captured group id is
    written back to [m] and the error is toasted; on success there is no
    further write to the store, and [m.groupId] stays [g]. *)
Theorem optimistic_drop_rolls_back_on_failure (c : Closure)
    (memberId g : string) (w : World) (s : TeamSession) (m : TeamMember) :
  isAdmin c = true → session c = Some s →
  find (hasId memberId) (cmembers c) = Some m →
  groupId m ≠ Some g →
  let w' := exec (handleMemberDroppedOnGroup updateMember whileAwaiting
                    c memberId g) w in
  let optimistic := assignGroup memberId (Some g) (cache w) in
  let issued := [CacheUpdated optimistic;
                 UpdateMemberCalled (teamId c) (token s) memberId g] in
  (∀ x, x ∈ cachedMembers optimistic → id x = memberId → groupId x = Some g)
  ∧ (∀ x, x ∈ cachedMembers (cache w) → id x = memberId →
       with_groupId x (Some g) ∈ cachedMembers optimistic)
  ∧ match updateMember (teamId c) (token s) memberId g with
    | Failure error =>
        cache w' = assignGroup memberId (groupId m) (whileAwaiting optimistic)
        ∧ (∀ x, x ∈ cachedMembers (cache w') → id x = memberId →
             groupId x = groupId m)
        ∧ log w' = log w ++ issued ++ [CacheUpdated (cache w'); ToastError error]
        ∧ (whileAwaiting optimistic = optimistic →
           cmembers c = cachedMembers (cache w) →
           NoDup (id <$> cachedMembers (cache w)) →
           cache w' = cache w)
    | Success =>
        cache w' = whileAwaiting optimistic
        ∧ log w' = log w ++ issued ++ [ToastSuccess (addedText c m g)]
        ∧ (whileAwaiting optimistic = optimistic →
           ∀ x, x ∈ cachedMembers (cache w') → id x = memberId →
             groupId x = Some g)
    end.
Proof.
  intros Hadmin Hsession Hfind Hother w' optimistic issued.
  pose proof (handleMemberDroppedOnGroup_run c memberId g w s m
                Hadmin Hsession Hfind Hother) as Hrun.
  fold w' in Hrun. simpl in Hrun. fold optimistic in Hrun.
  split; [intros x; apply assignGroup_sets|].
  split; [intros x; apply assignGroup_keeps|].
  destruct (updateMember (teamId c) (token s) memberId g) as [|error];
    rewrite Hrun; simpl.
  - split; [done|]. split; [done|].
    intros ->. intros x. apply assignGroup_sets.
  - split; [done|]. split; [intros x; apply assignGroup_sets|].
    split; [done|].
    intros -> Hc Hnd. apply assignGroup_undo; [done|]. by rewrite <- Hc.
Qed.

End OptimisticDrop.

Section OptimisticDropExamples.
Import TeamStore Fixtures.

(** Kenji is dragged into Platform, the request fails, nothing else
    touches the store meanwhile: the store is back at its old value, and
    the log shows write, request, write-back, error toast. *)
Lemma optimistic_drop_rolls_back_on_failure_witness :
  let failing := λ _ _ _ _ : string, Failure "Failed to update member" in
  let c := render "t1" (Some (mkSession "tok" admin)) (Some acme) in
  let w' := exec (handleMemberDroppedOnGroup failing (λ x, x) c "m2" "g2")
                 (mkWorld (Some acme) []) in
  cache w' = Some acme
  ∧ log w'
    = [CacheUpdated (assignGroup "m2" (Some "g2"%string) (Some acme));
       UpdateMemberCalled "t1" "tok" "m2" "g2";
       CacheUpdated (Some acme);
       ToastError "Failed to update member"].
Proof.
  intros failing c w'.
  destruct (optimistic_drop_rolls_back_on_failure failing (λ x, x) c
              "m2" "g2" (mkWorld (Some acme) []) (mkSession "tok" admin) kenji)
    as (_ & _ & Hcache & _ & Hlog & Hback);
    [reflexivity | reflexivity | reflexivity | discriminate |].
  fold w' in Hcache, Hlog, Hback.
  assert (Hsame : cache w' = Some acme).
  { apply Hback; [reflexivity | reflexivity |].
    apply (bool_decide_unpack _). vm_compute. exact I. }
  split; [exact Hsame|]. rewrite Hlog, Hsame. reflexivity.
Defined.

Example drop_succeeds :
  exec (handleMemberDroppedOnGroup (λ _ _ _ _, Success) (λ x, x)
          (render "t1" (Some (mkSession "tok" admin)) (Some acme)) "m2" "g2")
       (mkWorld (Some acme) [])
  = mkWorld (assignGroup "m2" (Some "g2"%string) (Some acme))
      [CacheUpdated (assignGroup "m2" (Some "g2"%string) (Some acme));
       UpdateMemberCalled "t1" "tok" "m2" "g2";
       ToastSuccess "Kenji added to Platform"].
Proof. vm_compute. reflexivity. Qed.

(** When the fetched role is not admin the store is never reached. *)
Example drop_without_admin :
  let viewed := Some {| team := team acme; role := member |} in
  exec (handleMemberDroppedOnGroup (λ _ _ _ _, Success) (λ x, x)
          (render "t1" (Some (mkSession "tok" member)) viewed) "m2" "g2")
       (mkWorld viewed [])
  = mkWorld viewed [ToastError "Admin access required"].
Proof. vm_compute. reflexivity. Qed.

End OptimisticDropExamples.

Section LegacyReorder.
Import LegacyClient.

(** X29.  The [useState] store of [client.tsx] follows the same pattern: on
    failure the list captured before the optimistic [setMembers] is set
    again, after the error toast. *)
Lemma reorder_rolls_back_on_failure
    (reorderMembersAction : string → list string → TeamStore.ActionResult)
    (whileAwaiting : list TeamMember → list TeamMember)
    (teamId : string) (members newOrder : list TeamMember) (w : World)
    (error : string) :
  reorderMembersAction teamId (id <$> newOrder) = TeamStore.Failure error →
  handleReorder reorderMembersAction whileAwaiting teamId members newOrder w
  = mkWorld members
      (log w ++ [MembersSet newOrder; ReorderCalled teamId (id <$> newOrder);
                 ToastError error; MembersSet members]).
Proof.
  intros Hfail. unfold handleReorder, setMembers. rewrite Hfail. simpl.
  by rewrite <- !app_assoc.
Qed.

End LegacyReorder.

(** ** Local identity resolver *)

Section IdentityResolver.
Import CurrentTeamUser.

Lemma filter_bool_decide {A} (P : A → Prop) `{∀ x, Decision (P x)} (l : list A) :
  List.filter (λ x, bool_decide (P x)) l = filter P l.
Proof.
  induction l as [|x l IH]; [done|]. simpl. rewrite filter_cons.
  rewrite IH. unfold bool_decide, decide. by destruct (H x).
Qed.

(** [suggestedUser] once a viewer timezone is there, in closed form. *)
Lemma suggestedUser_Some (viewerTimezone : string) (members : list TeamMember)
    (state : CurrentTeamUserState) (m : TeamMember) :
  viewerTimezone ≠ ""%string →
  suggestedUser viewerTimezone members state = Some m
  ↔ Js.truthy_str (memberId state) = false
    ∧ filter (λ x, timezone x = viewerTimezone) members = [m]
    ∧ id m ∉ dismissedSuggestions state.
Proof.
  intros Htz%nonempty_true. unfold suggestedUser.
  rewrite Htz, filter_bool_decide. simpl.
  destruct (Js.truthy_str (memberId state)); [split; [done|by intros []]|].
  destruct (filter _ members) as [|x [|y rest]].
  - split; [done|]. by intros (_ & ? & _).
  - case_bool_decide as Hd; simpl.
    + split; [done|]. intros (_ & [= ->] & Hn). done.
    + split; [by intros [= ->]|]. by intros (_ & [= ->] & _).
  - split; [done|]. by intros (_ & ? & _).
Qed.

(** C6.  With a resolved (non-empty) viewer timezone, a suggestion is
    offered exactly when no member id is selected, exactly one member's
    timezone string equals the viewer's, and that member's id was not
    dismissed; the suggestion is that member; and once its id is
    dismissed nothing is suggested although the match is still there. *)
Theorem suggestion_offered_exactly_when (viewerTimezone : string)
    (members : list TeamMember) (state : CurrentTeamUserState) :
  viewerTimezone ≠ ""%string →
  (suggestedUser viewerTimezone members state ≠ None
   ↔ Js.truthy_str (memberId state) = false
     ∧ ∃ m, filter (λ x, timezone x = viewerTimezone) members = [m]
            ∧ id m ∉ dismissedSuggestions state)
  ∧ (∀ m, suggestedUser viewerTimezone members state = Some m
          ↔ Js.truthy_str (memberId state) = false
            ∧ filter (λ x, timezone x = viewerTimezone) members = [m]
            ∧ id m ∉ dismissedSuggestions state)
  ∧ (∀ m, suggestedUser viewerTimezone members state = Some m →
          suggestedUser viewerTimezone members
            (dismissSuggestion (id m) state) = None
          ∧ filter (λ x, timezone x = viewerTimezone) members = [m]).
Proof.
  intros Htz. split; [|split].
  - split.
    + destruct (suggestedUser viewerTimezone members state) as [m|] eqn:E;
        [|done]. intros _.
      apply suggestedUser_Some in E as (Hsel & Hone & Hnd); [|done].
      split; [done|]. by exists m.
    + intros (Hsel & m & Hone & Hnd).
      assert (suggestedUser viewerTimezone members state = Some m) as ->; [|done].
      by apply suggestedUser_Some.
  - intros m. by apply suggestedUser_Some.
  - intros m (Hsel & Hone & Hnd)%suggestedUser_Some; [|done]. split; [|done].
    destruct (suggestedUser viewerTimezone members
                (dismissSuggestion (id m) state)) as [m'|] eqn:E; [|done].
    apply suggestedUser_Some in E as (_ & Hone' & Hnd'); [|done].
    rewrite Hone in Hone'. injection Hone' as <-.
    exfalso. apply Hnd'. simpl. apply elem_of_app. right. left.
Qed.

(** The specification's example: one member in UTC, viewer in UTC. *)
Lemma suggestion_offered_exactly_when_witness :
  suggestedUser "UTC" [Fixtures.ann] DEFAULT_STATE = Some Fixtures.ann
  ∧ suggestedUser "UTC" [Fixtures.ann]
      (dismissSuggestion "m1" DEFAULT_STATE) = None.
Proof.
  destruct (suggestion_offered_exactly_when "UTC" [Fixtures.ann] DEFAULT_STATE)
    as (_ & Hiff & Hdismiss); [discriminate|].
  assert (Hs : suggestedUser "UTC" [Fixtures.ann] DEFAULT_STATE
               = Some Fixtures.ann).
  { apply Hiff. split; [reflexivity|]. split; [reflexivity|].
    simpl. apply not_elem_of_nil. }
  split; [exact Hs|]. exact (proj1 (Hdismiss Fixtures.ann Hs)).
Defined.

Lemma currentUser_None (members : list TeamMember)
    (state : CurrentTeamUserState) (i : string) :
  memberId state = Some i → (∀ m, m ∈ members → id m ≠ i) →
  currentUser members state = None.
Proof.
  intros Hid Hnone. unfold currentUser. rewrite Hid.
  destruct (Js.nonempty i); [|done].
  destruct (find (hasId i) members) as [m|] eqn:E; [|done].
  apply find_some in E as [Hin%list_elem_of_In Hm%bool_decide_eq_true].
  by apply Hnone in Hin.
Qed.

(** C7.  When the member list is non-empty and the stored member id
    matches none of its members, the effect clears the selection:
    [memberId] and [source] become [null].  Whatever the effect does, the
    dismissed suggestions stay as they are, and with an empty member list
    it does nothing. *)
Theorem stale_selection_is_cleared (members : list TeamMember)
    (state stored : CurrentTeamUserState) :
  (∀ i : string,
     memberId state = Some i → i ≠ ""%string →
     (∀ m, m ∈ members → id m ≠ i) → members ≠ [] →
     clearingEffect members state = Some clearSelection
     ∧ memberId (runEffect (clearingEffect members state) stored) = None
     ∧ source (runEffect (clearingEffect members state) stored) = None)
  ∧ dismissedSuggestions (runEffect (clearingEffect members state) stored)
    = dismissedSuggestions stored
  ∧ (members = [] → runEffect (clearingEffect members state) stored = stored).
Proof.
  split; [|split].
  - intros i Hid Hi%nonempty_true Hnone Hmembers.
    assert (clearingEffect members state = Some clearSelection) as ->; [|done].
    unfold clearingEffect. rewrite (currentUser_None members state i) by done.
    rewrite Hid. simpl. rewrite Hi. simpl.
    rewrite bool_decide_eq_true_2; [done|].
    destruct members; [done|simpl; lia].
  - unfold clearingEffect. by destruct (_ && _).
  - intros ->. unfold clearingEffect. simpl. by rewrite andb_false_r.
Qed.

(** [clearCurrentUser] installs the very state the effect installs. *)
Lemma clearCurrentUser_clears (prev : CurrentTeamUserState) :
  clearCurrentUser prev = clearSelection prev.
Proof. reflexivity. Qed.

(** Accepting a suggestion selects that member and ends the suggesting. *)
Lemma acceptSuggestion_selects (viewerTimezone : string)
    (members : list TeamMember) (prev : CurrentTeamUserState) (i : string) :
  i ≠ ""%string →
  isCurrentUser (acceptSuggestion i prev) i = true
  ∧ source (acceptSuggestion i prev) = Some suggested
  ∧ suggestedUser viewerTimezone members (acceptSuggestion i prev) = None.
Proof.
  intros Hi%nonempty_true. unfold acceptSuggestion, setCurrentUser,
    isCurrentUser, suggestedUser. simpl. rewrite Hi.
  by rewrite bool_decide_eq_true_2.
Qed.

(** Ann was selected, then removed from the team. *)
Lemma stale_selection_is_cleared_witness :
  let state := {| memberId := Some "m1"%string; source := Some explicit;
                  dismissedSuggestions := ["m9"%string] |} in
  runEffect (clearingEffect [Fixtures.kenji] state) state
  = {| memberId := None; source := None;
       dismissedSuggestions := ["m9"%string] |}
  ∧ runEffect (clearingEffect [] state) state = state.
Proof.
  intros state.
  destruct (stale_selection_is_cleared [Fixtures.kenji] state state)
    as (Hclear & _ & _).
  destruct (Hclear "m1"%string) as (Heff & _ & _);
    [reflexivity | discriminate | | discriminate |].
  { intros m ->%list_elem_of_singleton. discriminate. }
  split.
  - rewrite Heff. reflexivity.
  - apply (stale_selection_is_cleared [] state state). reflexivity.
Defined.

End IdentityResolver.

(** ** Session storage reads *)

Section SessionReads.
Import Json SessionStore.

(** The guard accepts exactly the well-formed session objects. *)
Lemma isTeamSession_spec (v : JsonValue) :
  isTeamSession v = true ↔ IsSessionObject v.
Proof.
  unfold IsSessionObject.
  destruct v as [|b|mant ex|str|arr|fields].
  - split; [done|by intros ([? ?] & _)].
  - split; [|by intros ([? ?] & _)]. unfold isTeamSession. simpl. by destruct b.
  - split; [|by intros ([? ?] & _)]. unfold isTeamSession. simpl.
    by destruct (mant =? 0).
  - split; [|by intros ([? ?] & _)]. unfold isTeamSession. simpl.
    by destruct (Js.nonempty str).
  - split; [done|by intros ([? ?] & _)].
  - unfold isTeamSession. cbn [truthy typeof negb orb].
    rewrite bool_decide_eq_true_2 by done. cbn [negb].
    rewrite andb_true_iff, orb_true_iff, bool_decide_eq_true.
    set (tokenv := prop (JObject fields) "token").
    set (rolev := prop (JObject fields) "role").
    split.
    + intros [Htok Hrole]. split; [by eexists|]. split.
      * destruct tokenv as [[]|]; try done. by eexists.
      * unfold isString in Hrole.
        destruct rolev as [[]|]; try (by destruct Hrole).
        destruct Hrole as [->%bool_decide_eq_true| ->%bool_decide_eq_true];
          [by left|by right].
    + intros (_ & [tok ->] & Hrole). split; [done|].
      destruct Hrole as [-> | ->]; [by left|by right].
Qed.

Variable JSON_parse : string → Res JsonValue.

(** Both readers have this shape once the stored text is at hand. *)
Lemma read_shape (stored : Res (option string)) :
  ∃ r : option JsonValue,
    try_catch
      (raw ← stored;
       if negb (Js.truthy_str raw) then mret None
       else
         parsed ← JSON_parse (default ""%string raw);
         mret (if isTeamSession parsed then Some parsed else None))
      (mret None) = Returned r
    ∧ ∀ v, r = Some v
           ↔ ∃ raw, stored = Returned (Some raw) ∧ raw ≠ ""%string
                    ∧ JSON_parse raw = Returned v ∧ IsSessionObject v.
Proof.
  destruct stored as [[raw|]|e]; simpl.
  - destruct (Js.nonempty raw) eqn:Hraw; simpl.
    + destruct (JSON_parse raw) as [parsed|e] eqn:Hparse; simpl.
      * destruct (isTeamSession parsed) eqn:Hok.
        -- eexists. split; [done|]. intros v. split.
           ++ intros [= <-]. exists raw. apply nonempty_true in Hraw.
              by apply isTeamSession_spec in Hok.
           ++ intros (raw' & [= <-] & _ & Hp & _). congruence.
        -- eexists. split; [done|]. intros v. split; [done|].
           intros (raw' & [= <-] & _ & Hp & Hv%isTeamSession_spec).
           congruence.
      * eexists. split; [done|]. intros v. split; [done|].
        intros (raw' & [= <-] & _ & Hp & _). congruence.
    + eexists. split; [done|]. intros v. split; [done|].
      intros (raw' & [= <-] & Hne & _). by apply nonempty_false in Hraw.
  - eexists. split; [done|]. intros v. split; [done|]. by intros (? & ? & _).
  - eexists. split; [done|]. intros v. split; [done|]. by intros (? & ? & _).
Qed.

Lemma client_read_shape (sessionStorage : Storage) (teamId : string) :
  Client.readTeamSession JSON_parse sessionStorage teamId
  = try_catch
      (raw ← getItem sessionStorage (Client.getTeamSessionKey teamId);
       if negb (Js.truthy_str raw) then mret None
       else
         parsed ← JSON_parse (default ""%string raw);
         mret (if isTeamSession parsed then Some parsed else None))
      (mret None).
Proof. reflexivity. Qed.

Lemma server_read_shape (cookies : Res CookieStore) (teamId : string) :
  Server.readTeamSession JSON_parse cookies teamId
  = try_catch
      (raw ← (jar ← cookies; mret (jar !! Server.getTeamSessionKey teamId));
       if negb (Js.truthy_str raw) then mret None
       else
         parsed ← JSON_parse (default ""%string raw);
         mret (if isTeamSession parsed then Some parsed else None))
      (mret None).
Proof. unfold Server.readTeamSession. by destruct cookies. Qed.

End SessionReads.

Section SessionFallback.
Import Json SessionStore.

Variable JSON_parse : string → Res JsonValue.

(** What a reader of that shape returns, case by case. *)
Lemma read_cases (stored : Res (option string)) :
  ∃ r : option JsonValue,
    try_catch
      (raw ← stored;
       if negb (Js.truthy_str raw) then mret None
       else
         parsed ← JSON_parse (default ""%string raw);
         mret (if isTeamSession parsed then Some parsed else None))
      (mret None) = Returned r
    ∧ (∀ v, r = Some v
            ↔ ∃ raw, stored = Returned (Some raw) ∧ raw ≠ ""%string
                     ∧ JSON_parse raw = Returned v ∧ IsSessionObject v)
    ∧ (stored = Returned None → r = None)
    ∧ ((∃ e, stored = Thrown e) → r = None)
    ∧ (∀ raw e, stored = Returned (Some raw) →
         JSON_parse raw = Thrown e → r = None)
    ∧ (∀ raw v, stored = Returned (Some raw) →
         JSON_parse raw = Returned v → ¬ IsSessionObject v → r = None).
Proof.
  destruct (read_shape JSON_parse stored) as (r & Hr & Hiff).
  exists r. split; [done|]. split; [done|].
  destruct r as [v|]; [|done].
  destruct (proj1 (Hiff v) eq_refl) as (raw & Hs & Hne & Hp & Hv).
  repeat split.
  - congruence.
  - intros [e He]. congruence.
  - intros raw' e Hs' Hp'. congruence.
  - intros raw' v' Hs' Hp' Hv'. exfalso. apply Hv'. congruence.
Qed.

(** C9.  [readTeamSession], from session storage and from cookies alike,
    always returns and never throws.  It returns a value only when the
    stored text is present, parses, and parses to an object with a
    string [token] and [role] ["admin"] or ["member"]; it returns [null]
    when the entry is absent, when reading the store or parsing throws,
    and when the parsed value is not such an object. *)
Theorem read_session_falls_back_to_null (teamId : string) :
  (∀ sessionStorage : Storage,
     let stored := getItem sessionStorage (Client.getTeamSessionKey teamId) in
     ∃ r : option JsonValue,
       Client.readTeamSession JSON_parse sessionStorage teamId = Returned r
       ∧ (∀ v, r = Some v
               ↔ ∃ raw, stored = Returned (Some raw) ∧ raw ≠ ""%string
                        ∧ JSON_parse raw = Returned v ∧ IsSessionObject v)
       ∧ (stored = Returned None → r = None)
       ∧ ((∃ e, stored = Thrown e) → r = None)
       ∧ (∀ raw e, stored = Returned (Some raw) →
            JSON_parse raw = Thrown e → r = None)
       ∧ (∀ raw v, stored = Returned (Some raw) →
            JSON_parse raw = Returned v → ¬ IsSessionObject v → r = None))
  ∧ (∀ cookies : Res CookieStore,
     let stored :=
       jar ← cookies; mret (jar !! Server.getTeamSessionKey teamId) in
     ∃ r : option JsonValue,
       Server.readTeamSession JSON_parse cookies teamId = Returned r
       ∧ (∀ v, r = Some v
               ↔ ∃ raw, stored = Returned (Some raw) ∧ raw ≠ ""%string
                        ∧ JSON_parse raw = Returned v ∧ IsSessionObject v)
       ∧ (stored = Returned None → r = None)
       ∧ ((∃ e, stored = Thrown e) → r = None)
       ∧ (∀ raw e, stored = Returned (Some raw) →
            JSON_parse raw = Thrown e → r = None)
       ∧ (∀ raw v, stored = Returned (Some raw) →
            JSON_parse raw = Returned v → ¬ IsSessionObject v → r = None)).
Proof.
  split.
  - intros sessionStorage stored. rewrite client_read_shape.
    apply read_cases.
  - intros cookies stored. rewrite server_read_shape. apply read_cases.
Qed.

End SessionFallback.

Section SessionExamples.
Import Json SessionStore Fixtures.

Lemma adminSession_ok : IsSessionObject adminSession.
Proof. split; [by eexists|]. split; [by eexists|by left]. Qed.

(** A stored admin session is read back; a stored session with another
    role, malformed text, a missing entry and a denied store all read as
    [null]. *)
Lemma read_session_falls_back_to_null_witness :
  let key := Client.getTeamSessionKey "t1" in
  Client.readTeamSession parseFixture
    (mkStorage (<[key := adminSessionText]> ∅) false) "t1"
  = Returned (Some adminSession)
  ∧ Client.readTeamSession parseFixture
      (mkStorage (<[key := "{oops"%string]> ∅) false) "t1"
    = Returned None.
Proof.
  intros key.
  destruct (read_session_falls_back_to_null parseFixture "t1") as [Hclient _].
  split.
  - destruct (Hclient (mkStorage (<[key := adminSessionText]> ∅) false))
      as (r & -> & Hiff & _).
    f_equal. apply Hiff. exists adminSessionText.
    split; [|split; [discriminate|split; [reflexivity|apply adminSession_ok]]].
    unfold getItem. simpl. fold key. by rewrite lookup_insert_eq.
  - destruct (Hclient (mkStorage (<[key := "{oops"%string]> ∅) false))
      as (r & -> & _ & _ & _ & Hbad & _).
    f_equal. apply (Hbad "{oops"%string (SyntaxError "Unexpected token")).
    + unfold getItem. simpl. fold key. by rewrite lookup_insert_eq.
    + reflexivity.
Defined.

Example owner_role_is_rejected :
  isTeamSession
    (JObject [("token"%string, JString "tok-1"); ("role"%string, JString "owner")])
  = false.
Proof. reflexivity. Qed.

Example array_is_rejected : isTeamSession (JArray [JString "tok-1"]) = false.
Proof. reflexivity. Qed.

Example numeric_token_is_rejected :
  isTeamSession
    (JObject [("token"%string, JNumber 7 0); ("role"%string, JString "admin")])
  = false.
Proof. reflexivity. Qed.

Example denied_storage_reads_null :
  Client.readTeamSession parseFixture (mkStorage ∅ true) "t1" = Returned None.
Proof. reflexivity. Qed.

Example cookies_outside_request_read_null :
  Server.readTeamSession parseFixture (Thrown (OtherError "no request scope")) "t1"
  = Returned None.
Proof. reflexivity. Qed.

End SessionExamples.


(** * Part III: the rest of the cited files *)

(** ** Pair selection *)

Section SelectionFacts.
Import Selection.

Lemma firstOther_Some (ids : list string) (a : option string) (y : string) :
  firstOther ids a = Some y → y ∈ ids ∧ a ≠ Some y.
Proof.
  unfold firstOther. intros [Hin Hy]%find_some.
  split; [by apply list_elem_of_In|].
  apply negb_true_iff, bool_decide_eq_false in Hy. congruence.
Qed.

Lemma firstOther_None (ids : list string) (a : option string) :
  firstOther ids a = None ↔ ∀ y, y ∈ ids → a = Some y.
Proof.
  unfold firstOther. split.
  - intros Hnone y Hin%list_elem_of_In.
    pose proof (find_none _ _ Hnone y Hin) as Hy. simpl in Hy.
    apply negb_false_iff, bool_decide_eq_true in Hy. done.
  - intros Hall. destruct (find _ ids) as [y|] eqn:E; [|done].
    apply find_some in E as [Hin%list_elem_of_In Hy].
    apply negb_true_iff, bool_decide_eq_false in Hy.
    specialize (Hall y Hin). congruence.
Qed.

Lemma validSelection_true (selected : option string) (ids : list string) :
  validSelection selected ids = true
  ↔ ∃ s, selected = Some s ∧ s ≠ ""%string ∧ s ∈ ids.
Proof.
  unfold validSelection. destruct selected as [s|].
  - rewrite andb_true_iff, nonempty_true, bool_decide_eq_true. split.
    + intros [? ?]. by exists s.
    + by intros (? & [= <-] & ? & ?).
  - split; [done|]. by intros (? & ? & _).
Qed.

(** X1.  The active pair is always usable: the first id is missing only for
    an empty member list, both ids (when present) are ids of members, the
    second never equals the first, and the second is missing only when no
    member has an id other than the first. *)
Theorem active_pair_valid (members : list TeamMember)
    (selectedAId selectedBId : option string) :
  let a := fst (activeIds members selectedAId selectedBId) in
  let b := snd (activeIds members selectedAId selectedBId) in
  (a = None ↔ members = [])
  ∧ (∀ x, a = Some x → x ∈ id <$> members)
  ∧ (∀ y, b = Some y → y ∈ id <$> members ∧ a ≠ Some y)
  ∧ (b = None ↔ ∀ y, y ∈ id <$> members → a = Some y).
Proof.
  unfold activeIds. simpl.
  set (ids := id <$> members).
  set (a := if validSelection selectedAId ids then selectedAId else head ids).
  set (b0 := if validSelection selectedBId ids
                && negb (bool_decide (selectedBId = a))
             then selectedBId else firstOther ids a).
  assert (Ha : ∀ x, a = Some x → x ∈ ids).
  { intros x. subst a. destruct (validSelection selectedAId ids) eqn:E.
    - apply validSelection_true in E as (s & -> & _ & Hin). by intros [= <-].
    - intros Hx. apply head_Some in Hx as [l' ->]. left. }
  assert (Hb0 : ∀ y, b0 = Some y → y ∈ ids).
  { intros y. subst b0.
    destruct (validSelection selectedBId ids) eqn:E; simpl.
    - apply validSelection_true in E as (s & -> & _ & Hin).
      case_bool_decide; simpl; [by intros [? _]%firstOther_Some|by intros [= <-]].
    - by intros [? _]%firstOther_Some. }
  split; [|split; [done|split]].
  - split.
    + intros Hnone. destruct members as [|m ms]; [done|]. exfalso.
      subst a. destruct (validSelection selectedAId ids) eqn:E.
      * apply validSelection_true in E as (s & -> & _). done.
      * done.
    + intros ->. subst a ids. simpl.
      destruct (validSelection selectedAId []) eqn:E; [|done].
      apply validSelection_true in E as (s & _ & _ & Hin).
      by apply not_elem_of_nil in Hin.
  - intros y. case_bool_decide as Heq.
    + apply firstOther_Some.
    + intros Hy. split; [by apply Hb0|]. congruence.
  - case_bool_decide as Heq; [apply firstOther_None|].
    split.
    + intros Hnone. apply firstOther_None. subst b0.
      destruct (validSelection selectedBId ids && _) eqn:E; [|done].
      apply andb_true_iff in E as [(s & Hs & _)%validSelection_true _].
      congruence.
    + intros Hall. subst b0.
      destruct (validSelection selectedBId ids) eqn:E; simpl.
      * apply validSelection_true in E as (s & -> & _ & Hin).
        rewrite (bool_decide_eq_true_2 (Some s = a)) by by rewrite (Hall s Hin).
        simpl. by apply firstOther_None.
      * by apply firstOther_None.
Qed.



(** X3.  The two initial selections are already the active pair: the memo
    changes nothing on first render, whatever the member list. *)
Theorem initial_selection_is_active (members : list TeamMember) :
  activeIds members (initialSelectedA members) (initialSelectedB members)
  = (initialSelectedA members, initialSelectedB members).
Proof.
  unfold activeIds, initialSelectedA, initialSelectedB. lazy zeta.
  assert (Hfind : ∀ first,
    id <$> find (λ m, negb (bool_decide (Some (id m) = first))) members
    = firstOther (id <$> members) first).
  { intros first. unfold firstOther.
    induction members as [|m ms IH]; [done|]. simpl.
    destruct (negb _); [done|]. exact IH. }
  rewrite Hfind. clear Hfind.
  set (ids := id <$> members).
  assert (Hhead : id <$> head members = head ids) by by destruct members.
  rewrite Hhead.
  assert (Ha : (if validSelection (head ids) ids then head ids else head ids)
               = head ids) by by destruct (validSelection _ _).
  rewrite Ha. f_equal.
  assert (Hb : (if validSelection (firstOther ids (head ids)) ids
                   && negb (bool_decide (firstOther ids (head ids) = head ids))
                then firstOther ids (head ids) else firstOther ids (head ids))
               = firstOther ids (head ids)) by by destruct (_ && _).
  rewrite Hb. by case_bool_decide.
Qed.

End SelectionFacts.

(** ** Pairwise overlap and working-hour counts *)

Section OverlapFacts.
Import Visualizer.

Lemma and_true (a b : Js.cell) :
  Js.and a b = Some true ↔ a = Some true ∧ b = Some true.
Proof. destruct a as [[]|], b as [[]|]; simpl; split; try done; by intros []. Qed.

(** X4.  The overlap mask always has 24 slots, and a slot is true exactly
    when two rows are selected and both are true at that hour. *)
Theorem overlap_true_iff_both (selectedRowA selectedRowB : option Row) (h : nat) :
  length (overlapHours selectedRowA selectedRowB) = 24%nat
  ∧ (Js.get (overlapHours selectedRowA selectedRowB) h = Some true
     ↔ (h < 24)%nat
       ∧ ∃ rowA rowB, selectedRowA = Some rowA ∧ selectedRowB = Some rowB
           ∧ Js.get (hours rowA) h = Some true
           ∧ Js.get (hours rowB) h = Some true).
Proof.
  assert (Hblank : Js.get blankHours h ≠ Some true).
  { intros H. pose proof (blankHours_get h) as Hb. by rewrite H in Hb. }
  destruct selectedRowA as [rowA|], selectedRowB as [rowB|];
    unfold overlapHours, selectedHours.
  - split; [by rewrite length_imap|]. rewrite overlap_cell.
    destruct (decide (h < 24)%nat) as [Hh|Hh].
    + rewrite and_true. split.
      * intros [? ?]. split; [done|]. by exists rowA, rowB.
      * by intros (_ & ? & ? & [= <-] & [= <-] & ? & ?).
    + split; [done|]. by intros [? _].
  - split; [done|]. split; [done|]. by intros (_ & ? & ? & _ & ? & _).
  - split; [done|]. split; [done|]. by intros (_ & ? & ? & ? & _).
  - split; [done|]. split; [done|]. by intros (_ & ? & ? & ? & _).
Qed.

Variable convertHourToTimezone : Z → string → string → Z.
Hypothesis convert_in_day :
  ∀ hour fromTz toTz, 0 ≤ convertHourToTimezone hour fromTz toTz < 24.

(** Every row of [memberRows] carries 24 booleans. *)
Lemma member_row_cells (members : list TeamMember) (viewerTimezone : string)
    (row : Row) (h : nat) :
  row ∈ memberRows convertHourToTimezone members viewerTimezone →
  length (hours row) = 24%nat
  ∧ ((h < 24)%nat → ∃ b : bool, hours row !! h = Some (Some b)).
Proof.
  unfold memberRows. destruct (negb _); [by intros ?%not_elem_of_nil|].
  intros (m & -> & _)%list_elem_of_fmap. simpl.
  destruct (memberHours_window convertHourToTimezone convert_in_day
              m viewerTimezone) as [Hlen Hget].
  split; [done|]. intros Hh. eexists. by apply Hget.
Qed.

(** X5.  For rows built by [memberRows], the overlap does not depend on
    which member is picked first, and the overlap of a row with itself is
    the row's own mask. *)
Theorem overlap_commutes_and_self (members : list TeamMember)
    (viewerTimezone : string) (rowA rowB : Row) :
  rowA ∈ memberRows convertHourToTimezone members viewerTimezone →
  rowB ∈ memberRows convertHourToTimezone members viewerTimezone →
  overlapHours (Some rowA) (Some rowB) = overlapHours (Some rowB) (Some rowA)
  ∧ overlapHours (Some rowA) (Some rowA) = hours rowA.
Proof.
  intros HA HB. unfold overlapHours, selectedHours. split.
  - apply list_eq. intros h. rewrite !list_lookup_imap.
    destruct (decide (h < 24)%nat) as [Hh|Hh].
    + rewrite blankHours_lookup by done. simpl. f_equal.
      destruct (member_row_cells _ _ _ h HA) as [_ [a Ha]]; [done|].
      destruct (member_row_cells _ _ _ h HB) as [_ [b Hb]]; [done|].
      unfold Js.get. rewrite Ha, Hb. simpl. by destruct a, b.
    + rewrite lookup_ge_None_2; [done|]. rewrite blankHours_length. lia.
  - apply list_eq. intros h. rewrite list_lookup_imap.
    destruct (member_row_cells _ _ _ h HA) as [Hlen Hcell].
    destruct (decide (h < 24)%nat) as [Hh|Hh].
    + rewrite blankHours_lookup by done. simpl.
      destruct (Hcell Hh) as [a Ha]. unfold Js.get. rewrite Ha. simpl.
      by destruct a.
    + rewrite !lookup_ge_None_2; [done|lia|rewrite blankHours_length; lia].
Qed.

(** The mask only depends on the two converted hours; checking all 576
    pairs settles the count. *)
Lemma working_hours_by_enumeration :
  forallb (λ s, forallb (λ e,
      Nat.eqb (length (List.filter Js.truthy
                 (if s <=? e then markRange s e blankHours
                  else markRange 0 e (markRange s 24 blankHours))))
              (Z.to_nat ((e - s) `mod` 24)))
    (seqZ 0 24)) (seqZ 0 24) = true.
Proof. vm_compute. reflexivity. Qed.

(** X6.  A member's mask has exactly [(e - s) mod 24] working hours, for
    the converted start [s] and end [e]: a window keeps its length when it
    wraps past midnight, and equal bounds give zero hours, not 24. *)
Theorem mask_counts_window_length (m : TeamMember) (viewerTimezone : string) :
  let s := convertHourToTimezone (workingHoursStart m) (timezone m) viewerTimezone in
  let e := convertHourToTimezone (workingHoursEnd m) (timezone m) viewerTimezone in
  length (List.filter Js.truthy
            (memberHours convertHourToTimezone m viewerTimezone))
  = Z.to_nat ((e - s) `mod` 24).
Proof.
  intros s e. unfold memberHours. fold s e.
  pose proof (convert_in_day (workingHoursStart m) (timezone m) viewerTimezone) as Hs.
  pose proof (convert_in_day (workingHoursEnd m) (timezone m) viewerTimezone) as He.
  fold s in Hs. fold e in He.
  pose proof working_hours_by_enumeration as Hall.
  rewrite forallb_forall in Hall.
  assert (Hins : In s (seqZ 0 24)) by (apply list_elem_of_In, elem_of_seqZ; lia).
  specialize (Hall s Hins). cbv beta in Hall. rewrite forallb_forall in Hall.
  assert (Hine : In e (seqZ 0 24)) by (apply list_elem_of_In, elem_of_seqZ; lia).
  specialize (Hall e Hine). cbv beta in Hall.
  by apply Nat.eqb_eq in Hall.
Qed.

End OverlapFacts.

Section OverlapExamples.
Import Visualizer Fixtures.

Lemma overlap_commutes_and_self_witness :
  let rows := memberRows convertFixedOffset [ann; kenji; nora] "UTC" in
  overlapHours (rows !! 0%nat) (rows !! 1%nat)
  = overlapHours (rows !! 1%nat) (rows !! 0%nat).
Proof.
  intros rows.
  apply (overlap_commutes_and_self convertFixedOffset convertFixedOffset_in_day
           [ann; kenji; nora] "UTC"
           (mkRow ann (memberHours convertFixedOffset ann "UTC"))
           (mkRow kenji (memberHours convertFixedOffset kenji "UTC"))).
  - by apply (list_elem_of_lookup_2 _ 0%nat).
  - by apply (list_elem_of_lookup_2 _ 1%nat).
Defined.

(** Ann (9-17 UTC) and Kenji (0-9 UTC) share no hour. *)
Example ann_kenji_overlap :
  let rows := memberRows convertFixedOffset [ann; kenji; nora] "UTC" in
  overlapHours (rows !! 0%nat) (rows !! 1%nat) = blankHours.
Proof. vm_compute. reflexivity. Qed.

Lemma mask_counts_window_length_witness :
  length (List.filter Js.truthy
            (memberHours convertFixedOffset kenji "America/New_York")) = 9%nat.
Proof.
  exact (mask_counts_window_length convertFixedOffset convertFixedOffset_in_day
           kenji "America/New_York").
Defined.

End OverlapExamples.

Section BlockSummary.
Import Summary.

Variable formatHour : Z → string.

(** X7.  When the true hours of the mask form one block [a, b), the text
    is exactly that block, with an end of 24 shown as hour 0. *)
Theorem summary_exact_for_one_block (mask : list Js.cell) (a b : nat) :
  (a < b)%nat →
  (∀ h : nat, mask !! h = Some (Some true) ↔ (a ≤ h < b)%nat) →
  overlapSummary formatHour mask
  = formatHour (Z.of_nat a) +:+ separator
    +:+ formatHour (Z.of_nat b `mod` 24).
Proof.
  intros Hab Hblock. unfold overlapSummary.
  rewrite (findIndex_first mask 0 a).
  2: { apply Hblock. lia. }
  2: { intros j Hj Hc. apply Hblock in Hc. lia. }
  rewrite (lastIndexOf_last mask 0 (b - 1)); [|done| |].
  2: { apply Hblock. lia. }
  2: { intros j Hj Hc. apply Hblock in Hc. lia. }
  rewrite !Z.add_0_l.
  destruct (Z.eqb_spec (Z.of_nat a) (-1)); [lia|].
  destruct (Z.eqb_spec (Z.of_nat (b - 1)) (-1)); [lia|]. simpl.
  rewrite Z.rem_mod_nonneg by lia.
  replace (Z.of_nat (b - 1) + 1) with (Z.of_nat b) by lia. done.
Qed.

End BlockSummary.

Section BlockSummaryExample.
Import Summary Fixtures.

Lemma summary_exact_for_one_block_witness :
  overlapSummary formatHour24
    (replicate 20 (Some false) ++ replicate 4 (Some true))
  = formatHour24 20 +:+ separator +:+ formatHour24 0.
Proof.
  apply (summary_exact_for_one_block formatHour24
           (replicate 20 (Some false) ++ replicate 4 (Some true)) 20 24).
  - lia.
  - intros h. split.
    + intros Hh. assert (h < 24)%nat by (by apply lookup_lt_Some in Hh).
      destruct (decide (h < 20)%nat); [|lia].
      rewrite lookup_app_l, lookup_replicate_2 in Hh by (rewrite ?length_replicate; lia).
      done.
    + intros [H1 H2]. rewrite lookup_app_r by (rewrite length_replicate; lia).
      rewrite length_replicate. apply lookup_replicate_2. lia.
Defined.

End BlockSummaryExample.

(** ** Reconciler: members *)

Section ReconcilerMembers.
Import TeamStore Reconciler.

Lemma filter_twice {A} (p : A → bool) (l : list A) :
  List.filter p (List.filter p l) = List.filter p l.
Proof.
  induction l as [|x l IH]; [done|]. simpl.
  destruct (p x) eqn:E; simpl; by rewrite ?E, IH.
Qed.

Lemma elem_of_bool_filter {A} (p : A → bool) (l : list A) (x : A) :
  x ∈ List.filter p l ↔ x ∈ l ∧ p x = true.
Proof. by rewrite !list_elem_of_In, filter_In. Qed.

Lemma NoDup_fmap_bool_filter {A} (f : A → string) (p : A → bool) (l : list A) :
  NoDup (f <$> l) → NoDup (f <$> List.filter p l).
Proof.
  induction l as [|x l IH]; [done|]. rewrite fmap_cons.
  intros [Hx Hnd]%NoDup_cons. simpl. destruct (p x); [|by apply IH].
  rewrite fmap_cons. apply NoDup_cons. split; [|by apply IH].
  intros (y & Hy & [Hin _]%elem_of_bool_filter)%list_elem_of_fmap.
  apply Hx. rewrite Hy. by apply list_elem_of_fmap_2.
Qed.

Lemma find_hasId_None (i : string) (ms : list TeamMember) :
  find (hasId i) ms = None ↔ i ∉ id <$> ms.
Proof.
  rewrite <- existsb_hasId. induction ms as [|m ms IH]; simpl; [done|].
  destruct (hasId i m); simpl; [done|]. exact IH.
Qed.

Lemma memberRemoved_gone (i : string) (c : Cache) :
  i ∉ id <$> cachedMembers (memberRemoved i c).
Proof.
  destruct c as [d|]; simpl; [|apply not_elem_of_nil].
  intros (m & -> & [_ Hm]%elem_of_bool_filter)%list_elem_of_fmap.
  apply negb_true_iff in Hm. unfold hasId in Hm.
  by apply bool_decide_eq_false in Hm.
Qed.

Lemma memberRemoved_idem (i : string) (c : Cache) :
  memberRemoved i (memberRemoved i c) = memberRemoved i c.
Proof. destruct c as [d|]; [|done]. simpl. by rewrite filter_twice. Qed.

Lemma map_replace_ids (u : TeamMember) (ms : list TeamMember) :
  id <$> ((λ m, if hasId (id u) m then u else m) <$> ms) = id <$> ms.
Proof.
  rewrite <- list_fmap_compose. apply list_fmap_ext. intros _ m _. simpl.
  destruct (hasId (id u) m) eqn:E; [|done]. by apply hasId_true in E.
Qed.

(** X8.  ["team.memberUpdated"] replaces in place: the ids, their order and
    their number stay as they were, every member with the payload's id
    becomes the payload and every other member is untouched; when no
    member has that id the store is left exactly as it was. *)
Theorem member_updated_replaces_in_place (d : TeamData) (u : TeamMember) :
  ∃ d' : TeamData,
    memberUpdated u (Some d) = Some d'
    ∧ id <$> members (team d') = id <$> members (team d)
    ∧ (∀ (k : nat) (m : TeamMember), members (team d) !! k = Some m →
         members (team d') !! k = Some (if decide (id m = id u) then u else m))
    ∧ (id u ∉ id <$> members (team d) → d' = d)
    ∧ groups (team d') = groups (team d) ∧ tname (team d') = tname (team d)
    ∧ role d' = role d.
Proof.
  eexists. split; [reflexivity|]. simpl.
  split; [apply map_replace_ids|]. split; [|split; [|done]].
  - intros k m Hm. rewrite list_lookup_fmap, Hm. simpl. f_equal.
    unfold hasId. case_bool_decide; by case_decide.
  - intros Hnew. rewrite <- (with_members_same d) at 4.
    unfold with_team, with_members. do 2 f_equal.
    etrans; [|apply list_fmap_id]. apply list_fmap_ext.
    intros _ m Hm%list_elem_of_lookup_2. simpl.
    destruct (hasId (id u) m) eqn:E; [|done]. apply hasId_true in E.
    exfalso. apply Hnew. rewrite <- E. by apply list_elem_of_fmap_2.
Qed.

(** X9.  Two updates of the same member: the later one wins, the earlier
    leaves no trace.  Two updates of different members can be applied in
    either order. *)
Theorem member_updates_last_write_wins (u1 u2 : TeamMember) (c : Cache) :
  (id u1 = id u2 → memberUpdated u2 (memberUpdated u1 c) = memberUpdated u2 c)
  ∧ (id u1 ≠ id u2 →
     memberUpdated u2 (memberUpdated u1 c) = memberUpdated u1 (memberUpdated u2 c)).
Proof.
  destruct c as [d|]; [|done]. simpl. split; intros Hid.
  - do 3 f_equal. rewrite <- list_fmap_compose. apply list_fmap_ext.
    intros _ m _. simpl. unfold hasId.
    destruct (decide (id m = id u1)) as [Hm|Hm].
    + rewrite (bool_decide_eq_true_2 (id m = id u1)) by done.
      rewrite (bool_decide_eq_true_2 (id u1 = id u2)) by done.
      by rewrite bool_decide_eq_true_2 by congruence.
    + by rewrite (bool_decide_eq_false_2 (id m = id u1)) by done.
  - do 3 f_equal. rewrite <- !list_fmap_compose. apply list_fmap_ext.
    intros _ m _. simpl. unfold hasId.
    destruct (decide (id m = id u1)) as [Hm1|Hm1];
      destruct (decide (id m = id u2)) as [Hm2|Hm2]; [congruence| | |].
    + rewrite (bool_decide_eq_true_2 (id m = id u1)) by done.
      rewrite (bool_decide_eq_false_2 (id m = id u2)) by done.
      rewrite (bool_decide_eq_false_2 (id u1 = id u2)) by done.
      by rewrite bool_decide_eq_true_2 by done.
    + rewrite (bool_decide_eq_false_2 (id m = id u1)) by done.
      rewrite (bool_decide_eq_true_2 (id m = id u2)) by done.
      by rewrite (bool_decide_eq_false_2 (id u2 = id u1)) by congruence.
    + rewrite (bool_decide_eq_false_2 (id m = id u1)) by done.
      rewrite (bool_decide_eq_false_2 (id m = id u2)) by done.
      by rewrite (bool_decide_eq_false_2 (id m = id u1)) by done.
Qed.

Lemma member_updates_last_write_wins_witness :
  let stale := with_groupId Fixtures.kenji (Some "g1"%string) in
  let fresh := with_groupId Fixtures.kenji (Some "g2"%string) in
  memberUpdated fresh (memberUpdated stale (Some Fixtures.acme))
  = memberUpdated fresh (Some Fixtures.acme)
  ∧ memberUpdated fresh (memberUpdated Fixtures.ann (Some Fixtures.acme))
    = memberUpdated Fixtures.ann (memberUpdated fresh (Some Fixtures.acme)).
Proof.
  intros stale fresh. split.
  - apply (member_updates_last_write_wins stale fresh). reflexivity.
  - apply (member_updates_last_write_wins Fixtures.ann fresh). discriminate.
Defined.

End ReconcilerMembers.

(** ** Reconciler: removal and its de-duplication window *)

Section ReconcilerRemoval.
Import TeamStore Reconciler.

Lemma onData_removed_processed (now stamp : Z) (i : string) (p : Page)
    (d : TeamData) :
  ¬ (fst (lastRemoval p) = i ∧ now - snd (lastRemoval p) < 1500) →
  cache p = Some d →
  onData now stamp (MemberRemoved i) p
  = match find (hasId i) (members (team d)) with
    | Some m =>
        mkPage (memberRemoved i (cache p)) (i, stamp)
               (toasts p ++ [mkToast (name m +:+ " left the team")
                                     (Some ("member-removed-" +:+ i))])
               (teamName p) (previousName p)
    | None => setCache (memberRemoved i (cache p)) p
    end.
Proof.
  intros Hwin Hc. unfold onData.
  assert ((bool_decide (fst (lastRemoval p) = i)
           && (now - snd (lastRemoval p) <? 1500)) = false) as ->.
  { apply andb_false_iff. destruct (decide (fst (lastRemoval p) = i)).
    - right. apply Z.ltb_ge.
      destruct (decide (now - snd (lastRemoval p) < 1500)); [|lia].
      by destruct Hwin.
    - left. by apply bool_decide_eq_false. }
  rewrite Hc. by destruct (find _ _).
Qed.

Lemma onData_removed_suppressed (now stamp : Z) (i : string) (p : Page) :
  fst (lastRemoval p) = i → now - snd (lastRemoval p) < 1500 →
  onData now stamp (MemberRemoved i) p = p.
Proof.
  intros Hid Hwin. unfold onData.
  rewrite bool_decide_eq_true_2 by done.
  by rewrite (proj2 (Z.ltb_lt _ _) Hwin).
Qed.

Lemma onData_removed_cache (now stamp : Z) (i : string) (p : Page) :
  cache (onData now stamp (MemberRemoved i) p) = cache p
  ∨ cache (onData now stamp (MemberRemoved i) p) = memberRemoved i (cache p).
Proof.
  unfold onData. destruct (_ && _); [by left|].
  destruct (cache p) as [d|] eqn:Hc; [|by left]. by right.
Qed.

(** X10.  A removal that finds its member shows one toast, takes the member
    out and records the removal.  Delivering the same removal again, at
    any later time, leaves the store and the toasts as they are; inside
    the 1.5 s window it changes nothing at all. *)
Theorem removal_redelivery_is_silent (p : Page) (d : TeamData)
    (m : TeamMember) (i : string) (now1 stamp1 now2 stamp2 : Z) :
  cache p = Some d →
  find (hasId i) (members (team d)) = Some m →
  ¬ (fst (lastRemoval p) = i ∧ now1 - snd (lastRemoval p) < 1500) →
  let p1 := onData now1 stamp1 (MemberRemoved i) p in
  let p2 := onData now2 stamp2 (MemberRemoved i) p1 in
  toasts p1 = toasts p ++ [mkToast (name m +:+ " left the team")
                                   (Some ("member-removed-" +:+ i))]
  ∧ (i ∉ id <$> cachedMembers (cache p1))
  ∧ lastRemoval p1 = (i, stamp1)
  ∧ cache p2 = cache p1
  ∧ toasts p2 = toasts p1
  ∧ (now2 - stamp1 < 1500 → p2 = p1).
Proof.
  intros Hc Hfind Hwin p1 p2.
  assert (Hp1 : p1 = mkPage (memberRemoved i (cache p)) (i, stamp1)
                  (toasts p ++ [mkToast (name m +:+ " left the team")
                                        (Some ("member-removed-" +:+ i))])
                  (teamName p) (previousName p)).
  { subst p1. rewrite (onData_removed_processed _ _ _ _ d) by done.
    by rewrite Hfind. }
  assert (Hgone : i ∉ id <$> cachedMembers (cache p1)).
  { rewrite Hp1. simpl. apply memberRemoved_gone. }
  split; [by rewrite Hp1|]. split; [done|]. split; [by rewrite Hp1|].
  assert (Hquick : now2 - stamp1 < 1500 → p2 = p1).
  { intros Hq. subst p2. apply onData_removed_suppressed; by rewrite Hp1. }
  destruct (decide (now2 - stamp1 < 1500)) as [Hq|Hq].
  { rewrite (Hquick Hq). done. }
  split; [|split; [|done]].
  - subst p2. destruct (cache p1) as [d1|] eqn:Hc1.
    + rewrite (onData_removed_processed _ _ _ _ d1); [| |done].
      2: { rewrite Hp1. simpl. lia. }
      assert (find (hasId i) (members (team d1)) = None) as ->.
      { by apply find_hasId_None. }
      simpl. rewrite <- Hc1, Hp1. simpl. apply memberRemoved_idem.
    + destruct (onData_removed_cache now2 stamp2 i p1) as [->| ->]; [done|].
      by rewrite Hc1.
  - subst p2. destruct (cache p1) as [d1|] eqn:Hc1.
    + rewrite (onData_removed_processed _ _ _ _ d1); [| |done].
      2: { rewrite Hp1. simpl. lia. }
      assert (find (hasId i) (members (team d1)) = None) as ->.
      { by apply find_hasId_None. }
      done.
    + unfold onData. destruct (_ && _); [done|]. by rewrite Hc1.
Qed.

(** X11.  The window is keyed on the id alone: when the removed member is
    added again and removed a second time within 1.5 s of the recorded
    removal, the second removal is dropped and the member stays in the
    store. *)
Theorem quick_second_removal_is_dropped (p : Page) (d : TeamData)
    (m again : TeamMember) (now1 stamp1 now2 stamp2 now3 stamp3 : Z) :
  cache p = Some d →
  find (hasId (id again)) (members (team d)) = Some m →
  ¬ (fst (lastRemoval p) = id again ∧ now1 - snd (lastRemoval p) < 1500) →
  now3 - stamp1 < 1500 →
  let p1 := onData now1 stamp1 (MemberRemoved (id again)) p in
  let p2 := onData now2 stamp2 (MemberAdded again) p1 in
  let p3 := onData now3 stamp3 (MemberRemoved (id again)) p2 in
  p3 = p2 ∧ again ∈ cachedMembers (cache p3).
Proof.
  intros Hc Hfind Hwin Hquick p1 p2 p3.
  assert (Hp1 : p1 = mkPage (memberRemoved (id again) (cache p)) (id again, stamp1)
                  (toasts p ++ [mkToast (name m +:+ " left the team")
                                        (Some ("member-removed-" +:+ id again))])
                  (teamName p) (previousName p)).
  { subst p1. rewrite (onData_removed_processed _ _ _ _ d) by done.
    by rewrite Hfind. }
  assert (Hp3 : p3 = p2).
  { subst p3. apply onData_removed_suppressed; subst p2; rewrite Hp1; done. }
  split; [done|]. rewrite Hp3. subst p2. rewrite Hp1, Hc. simpl.
  destruct (existsb (hasId (id again)) _) eqn:E.
  - exfalso. apply existsb_hasId in E.
    apply (memberRemoved_gone (id again) (Some d)). exact E.
  - simpl. apply elem_of_app. right. left.
Qed.

End ReconcilerRemoval.

Section ReconcilerRemovalExamples.
Import TeamStore Reconciler Fixtures.

Lemma removal_redelivery_is_silent_witness :
  let p1 := onData 5000 5001 (MemberRemoved "m2") freshPage in
  let p2 := onData 5400 5401 (MemberRemoved "m2") p1 in
  toasts p1 = [mkToast "Kenji left the team" (Some "member-removed-m2"%string)]
  ∧ p2 = p1.
Proof.
  intros p1 p2.
  destruct (removal_redelivery_is_silent freshPage acme kenji "m2"
              5000 5001 5400 5401) as (Ht & _ & _ & _ & _ & Hsame);
    [reflexivity | reflexivity | by intros [? _] |].
  split; [exact Ht|]. apply Hsame. lia.
Defined.

Lemma quick_second_removal_is_dropped_witness :
  let p1 := onData 5000 5001 (MemberRemoved "m2") freshPage in
  let p2 := onData 5200 5201 (MemberAdded kenji) p1 in
  let p3 := onData 5400 5401 (MemberRemoved "m2") p2 in
  kenji ∈ cachedMembers (cache p3).
Proof.
  intros p1 p2 p3.
  apply (quick_second_removal_is_dropped freshPage acme kenji kenji
           5000 5001 5200 5201 5400 5401);
    [reflexivity | reflexivity | by intros [? _] | lia].
Defined.

End ReconcilerRemovalExamples.

(** ** Reconciler: groups *)

Section ReconcilerGroups.
Import TeamStore Reconciler.

Lemma newMap_by_key_Some {V} (key : V → string) (l : list V) (i : string) (v : V) :
  newMap ((λ x, (key x, x)) <$> l) !! i = Some v → v ∈ l ∧ key v = i.
Proof.
  induction l as [|x l IH] using rev_ind; [done|].
  rewrite fmap_app. simpl. rewrite newMap_snoc.
  destruct (decide (key x = i)) as [<-|Hne].
  - rewrite lookup_insert_eq. intros [= <-]. split; [|done].
    apply elem_of_app. right. left.
  - rewrite lookup_insert_ne by done. intros [Hin Hid]%IH.
    split; [|done]. apply elem_of_app. by left.
Qed.

Lemma newMap_by_key_None {V} (key : V → string) (l : list V) (i : string) :
  newMap ((λ x, (key x, x)) <$> l) !! i = None ↔ i ∉ key <$> l.
Proof.
  induction l as [|x l IH] using rev_ind.
  - split; [|done]. intros _ H. by apply not_elem_of_nil in H.
  - rewrite !fmap_app. simpl. rewrite newMap_snoc.
    rewrite elem_of_app, list_elem_of_singleton.
    destruct (decide (key x = i)) as [<-|Hne].
    + rewrite lookup_insert_eq. split; [done|]. intros H. destruct H. by right.
    + rewrite lookup_insert_ne by done. rewrite IH. split.
      * intros Hn [H|H]; [done|congruence].
      * intros Hn H. apply Hn. by left.
Qed.

(** The callback of [order.map] in ["team.groupsReordered"], for a payload
    whose first id sits at position [n]. *)
Abbreviation placed M n :=
  (λ (index : nat) (i : string),
     match (M : gmap string TeamGroup) !! i with
     | Some group => Some (with_order group (Z.of_nat (n + index)))
     | None => None
     end) (only parsing).

Lemma placed_shift (M : gmap string TeamGroup) (n : nat) (payload : list string) :
  imap (placed M n ∘ S) payload = imap (placed M (S n)) payload.
Proof.
  apply imap_ext. intros k i _. simpl.
  by rewrite Nat.add_succ_r.
Qed.

Lemma filterBoolean_cons {V} (o : option V) (l : list (option V)) :
  filterBoolean (o :: l)
  = match o with Some v => v :: filterBoolean l | None => filterBoolean l end.
Proof. by destruct o. Qed.

Lemma reordered_groups_shape (G : list TeamGroup) (n : nat)
    (payload : list string) :
  let M := newMap ((λ g, (gid g, g)) <$> G) in
  let R := filterBoolean (imap (placed M n) payload) in
  gid <$> R = filter (λ i, i ∈ gid <$> G) payload
  ∧ Forall (λ g, ∃ (k : nat) (g0 : TeamGroup),
                payload !! k = Some (gid g) ∧ g0 ∈ G ∧ M !! gid g = Some g0
                ∧ g = with_order g0 (Z.of_nat (n + k))) R
  ∧ Forall (λ g, Z.of_nat n ≤ order g) R
  ∧ StronglySorted (λ g1 g2, order g1 < order g2) R.
Proof.
  intros M. revert n. induction payload as [|i payload IH]; intros n R.
  - subst R. simpl. repeat split; constructor.
  - subst R. rewrite imap_cons, placed_shift, filterBoolean_cons.
    destruct (IH (S n)) as (Hids & Hfrom & Hlow & Hsorted).
    set (R' := filterBoolean (imap (placed M (S n)) payload)) in *.
    destruct (M !! i) as [g|] eqn:E; cbv beta iota.
    + pose proof (newMap_by_key_Some gid G i g E) as [Hin Hgid].
      split; [|split; [|split]].
      * rewrite fmap_cons, filter_cons_True.
        -- simpl. by rewrite Hids, Hgid.
        -- rewrite <- Hgid. by apply list_elem_of_fmap_2.
      * apply Forall_cons. split.
        -- exists 0%nat, g. simpl. rewrite Hgid, E. by rewrite Nat.add_0_r.
        -- eapply Forall_impl; [exact Hfrom|].
           intros g' (k & g0 & Hk & ? & ? & ->).
           exists (S k), g0. simpl. by rewrite Nat.add_succ_r.
      * apply Forall_cons. split; [simpl; lia|].
        eapply Forall_impl; [exact Hlow|]. intros g'. simpl. lia.
      * apply StronglySorted_cons. split; [|exact Hsorted].
        eapply Forall_impl; [exact Hlow|]. intros g'. simpl. lia.
    + apply (newMap_by_key_None gid) in E.
      split; [|split; [|split]].
      * by rewrite filter_cons_False.
      * eapply Forall_impl; [exact Hfrom|].
        intros g' (k & g0 & Hk & ? & ? & ->).
        exists (S k), g0. simpl. by rewrite Nat.add_succ_r.
      * eapply Forall_impl; [exact Hlow|]. intros g'. simpl. lia.
      * done.
Qed.

(** X12.  ["team.groupsReordered"] keeps the groups the payload names, in
    payload sequence, each with its name and with [order] set to the
    position of its id in the payload; so the new list is strictly
    increasing in [order], even where unknown ids leave gaps. *)
Theorem groups_reordered_by_payload_position (d : TeamData)
    (payload : list string) :
  ∃ d' : TeamData,
    groupsReordered payload (Some d) = Some d'
    ∧ gid <$> groups (team d')
      = filter (λ i, i ∈ gid <$> groups (team d)) payload
    ∧ (∀ g, g ∈ groups (team d') →
         ∃ (k : nat) (g0 : TeamGroup),
           payload !! k = Some (gid g) ∧ g0 ∈ groups (team d)
           ∧ gid g0 = gid g ∧ gname g = gname g0 ∧ order g = Z.of_nat k)
    ∧ StronglySorted (λ g1 g2, order g1 < order g2) (groups (team d'))
    ∧ members (team d') = members (team d) ∧ tname (team d') = tname (team d).
Proof.
  eexists. split; [reflexivity|]. simpl.
  destruct (reordered_groups_shape (groups (team d)) 0 payload)
    as (Hids & Hfrom & _ & Hsorted).
  split; [exact Hids|]. split; [|split; [exact Hsorted|done]].
  intros g Hg. rewrite Forall_forall in Hfrom.
  destruct (Hfrom g Hg) as (k & g0 & Hk & Hin & Hm & Heq).
  exists k, g0. apply newMap_by_key_Some in Hm as [_ Hgid].
  rewrite Heq. simpl. rewrite Heq in Hk. simpl in Hk. done.
Qed.

(** An unknown id in the payload leaves a gap in the [order] values. *)
Example reorder_with_unknown_id_leaves_gap :
  cachedGroups (groupsReordered ["g2"; "gone"; "g1"]%string (Some Fixtures.acme))
  = [with_order Fixtures.platform 0; with_order Fixtures.design 2].
Proof. vm_compute. reflexivity. Qed.

End ReconcilerGroups.

(** ** Reconciler: redelivery and the uniqueness invariant *)

Section ReconcilerIdempotence.
Import TeamStore Reconciler.

Lemma memberAdded_idem (m : TeamMember) (c : Cache) :
  memberAdded m (memberAdded m c) = memberAdded m c.
Proof.
  destruct c as [d|]; [|done].
  destruct (memberAdded_has_id m d) as (d1 & -> & Hin & _).
  by apply memberAdded_duplicate.
Qed.

Lemma memberUpdated_idem (u : TeamMember) (c : Cache) :
  memberUpdated u (memberUpdated u c) = memberUpdated u c.
Proof.
  destruct c as [d|]; [|done]. simpl. do 3 f_equal.
  rewrite <- list_fmap_compose. apply list_fmap_ext. intros _ m _. simpl.
  destruct (hasId (id u) m) eqn:E; [|by rewrite E].
  unfold hasId. by rewrite bool_decide_eq_true_2.
Qed.

Lemma membersReordered_list_idem (payload : list string) (ms : list TeamMember) :
  LegacyClient.membersReordered payload (LegacyClient.membersReordered payload ms)
  = LegacyClient.membersReordered payload ms.
Proof.
  set (R := LegacyClient.membersReordered payload ms).
  change (filterBoolean ((λ i, newMap ((λ m, (id m, m)) <$> R) !! i) <$> payload)
          = filterBoolean ((λ i, newMap ((λ m, (id m, m)) <$> ms) !! i) <$> payload)).
  f_equal.
  apply list_fmap_ext. intros _ i Hi%list_elem_of_lookup_2.
  destruct (newMap ((λ m, (id m, m)) <$> ms) !! i) as [m|] eqn:E.
  - pose proof (newMap_lookup_Some _ _ _ E) as [Hin Hid].
    assert (HmR : m ∈ R) by (apply reorder_elem; by exists i).
    destruct (newMap ((λ m, (id m, m)) <$> R) !! i) as [m'|] eqn:E'.
    + apply newMap_lookup_Some in E' as [(j & _ & Hj)%reorder_elem Hid'].
      pose proof (newMap_lookup_Some _ _ _ Hj) as [_ Hidj].
      congruence.
    + apply newMap_lookup_None in E'. exfalso. apply E'.
      rewrite <- Hid. by apply list_elem_of_fmap_2.
  - apply newMap_lookup_None. apply newMap_lookup_None in E.
    intros (m' & -> & (j & _ & Hj)%reorder_elem)%list_elem_of_fmap.
    apply newMap_lookup_Some in Hj as [Hin _].
    apply E. by apply list_elem_of_fmap_2.
Qed.

Lemma membersReordered_idem (payload : list string) (c : Cache) :
  membersReordered payload (membersReordered payload c)
  = membersReordered payload c.
Proof.
  destruct c as [d|]; [|done]. rewrite !membersReordered_members. simpl.
  by rewrite membersReordered_list_idem.
Qed.

Lemma existsb_hasGid (i : string) (gs : list TeamGroup) :
  existsb (hasGid i) gs = true ↔ i ∈ gid <$> gs.
Proof.
  rewrite existsb_exists, list_elem_of_fmap. unfold hasGid. split.
  - intros (g & Hin%list_elem_of_In & Hg%bool_decide_eq_true). by exists g.
  - intros (g & -> & Hin). exists g. split; [by apply list_elem_of_In|].
    by apply bool_decide_eq_true.
Qed.

(** What ["team.groupCreated"] does to the group ids. *)
Lemma groupCreated_gids (g : TeamGroup) (d : TeamData) :
  ∃ d', groupCreated g (Some d) = Some d'
        ∧ members (team d') = members (team d)
        ∧ gid g ∈ gid <$> groups (team d')
        ∧ (NoDup (gid <$> groups (team d)) → NoDup (gid <$> groups (team d'))).
Proof.
  unfold groupCreated. destruct (existsb _ _) eqn:E.
  - exists d. apply existsb_hasGid in E. done.
  - eexists. split; [done|]. simpl. split; [done|].
    rewrite fmap_app. simpl. split.
    + apply elem_of_app. right. left.
    + intros Hnd. apply NoDup_app. split; [done|]. split; [|apply NoDup_singleton].
      intros i Hi ->%list_elem_of_singleton.
      apply existsb_hasGid in Hi. congruence.
Qed.

Lemma groupCreated_idem (g : TeamGroup) (c : Cache) :
  groupCreated g (groupCreated g c) = groupCreated g c.
Proof.
  destruct c as [d|]; [|done].
  destruct (groupCreated_gids g d) as (d1 & -> & _ & Hin & _).
  unfold groupCreated. apply existsb_hasGid in Hin. by rewrite Hin.
Qed.

Lemma groupUpdated_gids (u : TeamGroup) (gs : list TeamGroup) :
  gid <$> ((λ g, if hasGid (gid u) g then u else g) <$> gs) = gid <$> gs.
Proof.
  rewrite <- list_fmap_compose. apply list_fmap_ext. intros _ g _. simpl.
  destruct (hasGid (gid u) g) eqn:E; [|done].
  unfold hasGid in E. by apply bool_decide_eq_true in E.
Qed.

Lemma groupUpdated_idem (u : TeamGroup) (c : Cache) :
  groupUpdated u (groupUpdated u c) = groupUpdated u c.
Proof.
  destruct c as [d|]; [|done]. simpl. unfold with_groups, with_team. simpl.
  do 3 f_equal.
  rewrite <- list_fmap_compose. apply list_fmap_ext. intros _ g _. simpl.
  destruct (hasGid (gid u) g) eqn:E; [|by rewrite E].
  unfold hasGid. by rewrite bool_decide_eq_true_2.
Qed.

Lemma prop_filter_twice {A} (P : A → Prop) `{∀ x, Decision (P x)} (l : list A) :
  filter P (filter P l) = filter P l.
Proof.
  induction l as [|x l IH]; [done|]. rewrite filter_cons.
  destruct (decide (P x)); [|done]. by rewrite filter_cons_True, IH.
Qed.

Lemma groupRemoved_idem (g : string) (c : Cache) :
  groupRemoved g (groupRemoved g c) = groupRemoved g c.
Proof.
  destruct c as [d|]; [|done]. simpl. unfold with_team. simpl.
  do 2 f_equal. f_equal.
  - rewrite <- list_fmap_compose. apply list_fmap_ext. intros _ m _. simpl.
    destruct (bool_decide (groupId m = Some g)) eqn:E; simpl; [done|].
    by rewrite E.
  - apply prop_filter_twice.
Qed.

Abbreviation placed M n :=
  (λ (index : nat) (i : string),
     match (M : gmap string TeamGroup) !! i with
     | Some group => Some (with_order group (Z.of_nat (n + index)))
     | None => None
     end) (only parsing).

Lemma with_order_twice (g : TeamGroup) (a b : Z) :
  with_order (with_order g a) b = with_order g b.
Proof. reflexivity. Qed.

Lemma groupsReordered_idem (payload : list string) (c : Cache) :
  groupsReordered payload (groupsReordered payload c)
  = groupsReordered payload c.
Proof.
  destruct c as [d|]; [|done]. simpl. unfold with_groups, with_team. simpl.
  do 3 f_equal.
  destruct (reordered_groups_shape (groups (team d)) 0 payload)
    as (Hids & Hfrom & _ & _).
  set (M := newMap ((λ g, (gid g, g)) <$> groups (team d))) in *.
  set (R := filterBoolean (imap (placed M 0) payload)) in *.
  change (filterBoolean (imap (placed (newMap ((λ g, (gid g, g)) <$> R)) 0) payload)
          = R).
  unfold R at 2. f_equal. apply imap_ext. intros k i Hk. simpl.
  assert (Hi : i ∈ payload) by by apply list_elem_of_lookup_2 in Hk.
  rewrite Forall_forall in Hfrom.
  destruct (M !! i) as [g|] eqn:E.
  - pose proof (newMap_by_key_Some gid _ i g E) as [Hin Hgid].
    destruct (newMap ((λ g, (gid g, g)) <$> R) !! i) as [g'|] eqn:E'.
    + apply (newMap_by_key_Some gid) in E' as [HgR Hgid'].
      destruct (Hfrom g' HgR) as (k' & g0 & _ & _ & Hm & ->).
      simpl in Hm, Hgid'. rewrite Hgid', E in Hm. injection Hm as <-.
      by rewrite with_order_twice.
    + apply (newMap_by_key_None gid) in E'. exfalso. apply E'.
      rewrite Hids. apply list_elem_of_filter. split; [|done].
      rewrite <- Hgid. by apply list_elem_of_fmap_2.
  - apply (newMap_by_key_None gid) in E.
    assert (newMap ((λ g, (gid g, g)) <$> R) !! i = None) as ->; [|done].
    apply (newMap_by_key_None gid). rewrite Hids.
    intros [? _]%list_elem_of_filter. done.
Qed.

(** X13.  Every event can be delivered twice in a row without changing
    the store a second time, whatever the clock says, as long as the first
    delivery was not itself dropped by the removal window. *)
Theorem redelivery_leaves_store (e : Event) (p : Page)
    (now1 stamp1 now2 stamp2 : Z) :
  ¬ suppressed now1 e p →
  cache (onData now2 stamp2 e (onData now1 stamp1 e p))
  = cache (onData now1 stamp1 e p).
Proof.
  intros Hfirst. destruct e as [m|i|u|payload|n|g|g|g|payload].
  - simpl. apply memberAdded_idem.
  - simpl in Hfirst. destruct (cache p) as [d|] eqn:Hc.
    + destruct (onData_removed_cache now2 stamp2 i
                  (onData now1 stamp1 (MemberRemoved i) p)) as [->| ->];
        [done|].
      rewrite (onData_removed_processed _ _ _ _ d) by done.
      destruct (find _ _); simpl; rewrite Hc;
        apply (memberRemoved_idem _ (Some d)).
    + assert (Hp1 : onData now1 stamp1 (MemberRemoved i) p = p).
      { unfold onData. rewrite Hc. by destruct (_ && _). }
      rewrite Hp1. unfold onData. rewrite Hc. by destruct (_ && _).
  - simpl. apply memberUpdated_idem.
  - simpl. apply membersReordered_idem.
  - simpl. by destruct (cache p).
  - simpl. apply groupCreated_idem.
  - simpl. apply groupUpdated_idem.
  - simpl. apply groupRemoved_idem.
  - simpl. apply groupsReordered_idem.
Qed.

Lemma redelivery_leaves_store_witness :
  cache (onData 9000 9001 (GroupsReordered ["g2"; "g1"]%string)
           (onData 5000 5001 (GroupsReordered ["g2"; "g1"]%string)
              Fixtures.freshPage))
  = cache (onData 5000 5001 (GroupsReordered ["g2"; "g1"]%string)
             Fixtures.freshPage).
Proof.
  apply (redelivery_leaves_store (GroupsReordered ["g2"; "g1"]%string)
           Fixtures.freshPage 5000 5001 9000 9001).
  simpl. tauto.
Defined.

End ReconcilerIdempotence.

Section ReconcilerInvariant.
Import TeamStore Reconciler.

Lemma NoDup_fmap_prop_filter {A} (f : A → string) (P : A → Prop)
    `{∀ x, Decision (P x)} (l : list A) :
  NoDup (f <$> l) → NoDup (f <$> filter P l).
Proof.
  induction l as [|x l IH]; [done|]. rewrite fmap_cons.
  intros [Hx Hnd]%NoDup_cons. rewrite filter_cons.
  destruct (decide (P x)); [|by apply IH].
  rewrite fmap_cons. apply NoDup_cons. split; [|by apply IH].
  intros (y & Hy & [_ Hin]%list_elem_of_filter)%list_elem_of_fmap.
  apply Hx. rewrite Hy. by apply list_elem_of_fmap_2.
Qed.

Lemma groupRemoved_member_ids (g : string) (ms : list TeamMember) :
  id <$> ((λ m, if bool_decide (groupId m = Some g)
                then with_groupId m None else m) <$> ms) = id <$> ms.
Proof.
  rewrite <- list_fmap_compose. apply list_fmap_ext.
  intros _ m _. simpl. by case_bool_decide.
Qed.

(** One delivery keeps ids unique. *)
Lemma onData_unique_ids (now stamp : Z) (e : Event) (p : Page) :
  OrderWithoutRepeats e → UniqueIds (cache p) →
  UniqueIds (cache (onData now stamp e p)).
Proof.
  intros Hwf [Hm Hg]. unfold UniqueIds.
  destruct e as [m|i|u|payload|n|g|g|g|payload].
  - simpl. destruct (cache p) as [d|]; [|done].
    destruct (memberAdded_has_id m d) as (d' & Hd' & _ & Hnd).
    rewrite Hd'. simpl in *. split; [by apply Hnd|].
    unfold memberAdded in Hd'. destruct (existsb _ _); by injection Hd' as <-.
  - destruct (onData_removed_cache now stamp i p) as [->| ->]; [done|].
    destruct (cache p) as [d|]; [|done]. simpl in *.
    split; [by apply NoDup_fmap_bool_filter|done].
  - simpl. destruct (cache p) as [d|]; [|done]. simpl in *.
    by rewrite map_replace_ids.
  - simpl. destruct (cache p) as [d|]; [|done].
    rewrite membersReordered_members. simpl in *.
    rewrite reorder_ids. split; [by apply NoDup_filter|done].
  - simpl. by destruct (cache p).
  - simpl. destruct (cache p) as [d|]; [|done].
    destruct (groupCreated_gids g d) as (d' & -> & Hms & _ & Hnd).
    simpl in *. rewrite Hms. split; [done|by apply Hnd].
  - simpl. destruct (cache p) as [d|]; [|done]. simpl in *.
    by rewrite groupUpdated_gids.
  - simpl. destruct (cache p) as [d|]; [|done]. simpl in *.
    rewrite groupRemoved_member_ids. split; [done|].
    by apply NoDup_fmap_prop_filter.
  - simpl. destruct (cache p) as [d|]; [|done].
    destruct (reordered_groups_shape (groups (team d)) 0 payload) as (Hids & _).
    simpl in *. split; [done|]. rewrite Hids. by apply NoDup_filter.
Qed.

(** X14.  Unique member ids and unique group ids survive any stream of
    realtime events whose reorder payloads name no id twice. *)
Theorem unique_ids_survive_delivery (events : list (Z * Z * Event)) (p : Page) :
  Forall (λ x, OrderWithoutRepeats x.2) events →
  UniqueIds (cache p) →
  UniqueIds (cache (deliver events p)).
Proof.
  revert p. induction events as [|[[now stamp] e] events IH]; intros p Hwf Hp.
  - done.
  - apply Forall_cons in Hwf as [He Hwf]. simpl.
    apply IH; [done|]. by apply onData_unique_ids.
Qed.

(** A reorder payload that repeats an id does duplicate the member. *)
Example repeated_order_duplicates_member :
  id <$> cachedMembers (membersReordered ["m1"; "m1"]%string (Some Fixtures.acme))
  = ["m1"; "m1"]%string.
Proof. vm_compute. reflexivity. Qed.

Lemma memberCount_after_removal (g : string) (ms : list TeamMember)
    (grp : TeamGroup) :
  memberCount ((λ m, if bool_decide (groupId m = Some g)
                     then with_groupId m None else m) <$> ms) grp
  = if decide (gid grp = g) then 0%nat else memberCount ms grp.
Proof.
  unfold memberCount. induction ms as [|m ms IH]; [by case_decide|].
  rewrite fmap_cons. simpl.
  destruct (decide (gid grp = g)) as [->|Hne].
  - destruct (bool_decide (groupId m = Some g)) eqn:E; simpl; rewrite ?E; exact IH.
  - destruct (bool_decide (groupId m = Some g)) eqn:E; simpl.
    + apply bool_decide_eq_true in E.
      rewrite (bool_decide_eq_false_2 (groupId m = Some (gid grp))) by congruence.
      exact IH.
    + destruct (bool_decide (groupId m = Some (gid grp))); simpl; by rewrite IH.
Qed.

(** X15.  After a group is removed no member refers to it; if every
    member's group existed before, it still exists afterwards; the header
    count of the removed group is 0 and the counts of all other groups are
    what they were. *)
Theorem group_removed_leaves_no_dangling_reference (d : TeamData) (g : string) :
  ∃ d' : TeamData,
    groupRemoved g (Some d) = Some d'
    ∧ (∀ m, m ∈ members (team d') → groupId m ≠ Some g)
    ∧ ((∀ m x, m ∈ members (team d) → groupId m = Some x →
               x ∈ gid <$> groups (team d)) →
       ∀ m x, m ∈ members (team d') → groupId m = Some x →
              x ∈ gid <$> groups (team d'))
    ∧ (∀ grp, memberCount (members (team d')) grp
              = if decide (gid grp = g) then 0%nat
                else memberCount (members (team d)) grp).
Proof.
  eexists. split; [reflexivity|]. simpl. split; [|split].
  - intros m' (m & -> & _)%list_elem_of_fmap.
    case_bool_decide as E; simpl; [done|exact E].
  - intros Hall m' x (m & -> & Hin)%list_elem_of_fmap Hx.
    case_bool_decide as E; simpl in Hx; [done|].
    specialize (Hall m x Hin Hx).
    apply list_elem_of_fmap in Hall as (grp & -> & Hgrp).
    apply list_elem_of_fmap_2, list_elem_of_filter. split; [|done].
    congruence.
  - intros grp. apply memberCount_after_removal.
Qed.

Lemma group_removed_leaves_no_dangling_reference_witness :
  ∃ d' : TeamData,
    groupRemoved "g1" (Some Fixtures.acme) = Some d'
    ∧ memberCount (members (team d')) Fixtures.design = 0%nat
    ∧ ∀ m x, m ∈ members (team d') → groupId m = Some x →
             x ∈ gid <$> groups (team d').
Proof.
  destruct (group_removed_leaves_no_dangling_reference Fixtures.acme "g1")
    as (d' & Hrun & _ & Hkeep & Hcount).
  exists d'. split; [exact Hrun|]. split; [exact (Hcount Fixtures.design)|].
  apply Hkeep. intros m x Hm Hx.
  apply elem_of_cons in Hm as [->|Hm]; [injection Hx as <-; left|].
  apply elem_of_cons in Hm as [->|Hm]; [discriminate|].
  apply list_elem_of_singleton in Hm as ->. injection Hx as <-. left.
Defined.

End ReconcilerInvariant.

Section ReconcilerInvariantExample.
Import TeamStore Reconciler Fixtures.

Lemma unique_ids_survive_delivery_witness :
  UniqueIds (cache (deliver
    [(1000, 1001, MemberAdded kenji);
     (2000, 2001, MembersReordered ["m3"; "m1"]%string);
     (3000, 3001, GroupRemoved "g1");
     (4000, 4001, MemberRemoved "m1")] freshPage)).
Proof.
  apply unique_ids_survive_delivery.
  - repeat (apply Forall_cons; split; [simpl|]); try exact I; [|apply Forall_nil_2].
    apply (bool_decide_unpack _). vm_compute. exact I.
  - split; apply (bool_decide_unpack _); vm_compute; exact I.
Defined.

End ReconcilerInvariantExample.

(** ** Guards of the drag handler, and the reorder handler of [client.tsx] *)

Section DropGuards.
Import TeamStore.

Variable updateMember : string → string → string → string → ActionResult.
Variable whileAwaiting : Cache → Cache.

(** X16.  Unless the viewer is an admin with a session, the member is in
    the rendered list and it is not already in the target group, the
    handler neither writes the store nor calls the server: it does nothing,
    or only shows the "Admin access required" toast. *)
Theorem drop_without_guards_touches_nothing (c : Closure)
    (memberId g : string) (w : World) :
  ¬ (isAdmin c = true
     ∧ ∃ s m, session c = Some s
              ∧ find (hasId memberId) (cmembers c) = Some m
              ∧ groupId m ≠ Some g) →
  let w' := exec (handleMemberDroppedOnGroup updateMember whileAwaiting
                    c memberId g) w in
  cache w' = cache w
  ∧ (log w' = log w ∨ log w' = log w ++ [ToastError "Admin access required"]).
Proof.
  intros Hguard w'. subst w'. unfold handleMemberDroppedOnGroup, exec.
  destruct (isAdmin c) eqn:Ha; [|split; [done|by right]].
  destruct (session c) as [s|] eqn:Hs; [|split; [done|by right]].
  destruct (find (hasId memberId) (cmembers c)) as [m|] eqn:Hf;
    [|split; [done|by left]].
  case_bool_decide as Hg; [split; [done|by left]|].
  exfalso. apply Hguard. split; [done|]. by exists s, m.
Qed.

End DropGuards.

Section DropGuardsExample.
Import TeamStore.

(** Ann is already in Design: dropping her there does nothing. *)
Lemma drop_without_guards_touches_nothing_witness :
  exec (handleMemberDroppedOnGroup (λ _ _ _ _, Success) (λ x, x)
          (render "t1" (Some (mkSession "tok" admin)) (Some Fixtures.acme))
          "m1" "g1")
       (mkWorld (Some Fixtures.acme) [])
  = mkWorld (Some Fixtures.acme) [].
Proof.
  destruct (drop_without_guards_touches_nothing (λ _ _ _ _, Success) (λ x, x)
              (render "t1" (Some (mkSession "tok" admin)) (Some Fixtures.acme))
              "m1" "g1" (mkWorld (Some Fixtures.acme) [])) as [Hc Hl].
  { intros (_ & s & m & _ & Hm & Hg). injection Hm as <-. by apply Hg. }
  reflexivity.
Defined.

End DropGuardsExample.

Section LegacyReorderExample.
Import LegacyClient Fixtures.

(** Kenji joins while the reorder request is in flight; the request fails
    and the rollback puts the list of the render back, without Kenji. *)
Lemma reorder_rolls_back_on_failure_witness :
  handleReorder (λ _ _, TeamStore.Failure "Failed to reorder")
                (memberAdded kenji) "t1" [ann; nora] [nora; ann]
                (mkWorld [ann; nora] [])
  = mkWorld [ann; nora]
      [MembersSet [nora; ann]; ReorderCalled "t1" ["m3"; "m1"]%string;
       ToastError "Failed to reorder"; MembersSet [ann; nora]].
Proof.
  apply (reorder_rolls_back_on_failure
           (λ _ _, TeamStore.Failure "Failed to reorder") (memberAdded kenji)
           "t1" [ann; nora] [nora; ann] (mkWorld [ann; nora] [])
           "Failed to reorder").
  reflexivity.
Defined.

End LegacyReorderExample.

(** ** Collapsed groups *)

Section CollapseFacts.
Import Collapse.

Lemma filter_length_mono {A} (p q : A → bool) (l : list A) :
  (∀ x, p x = true → q x = true) →
  (length (List.filter p l) ≤ length (List.filter q l))%nat.
Proof.
  intros Hpq. induction l as [|x l IH]; [done|]. simpl.
  destruct (p x) eqn:Ep.
  - rewrite (Hpq x Ep). simpl. lia.
  - destruct (q x); simpl; lia.
Qed.

(** Expanding a group never hides a member. *)
Lemma visibleCount_expand (members : list TeamMember) (g : string)
    (collapsed : gset string) :
  (visibleCount members collapsed ≤ visibleCount members (collapsed ∖ {[g]}))%nat.
Proof.
  unfold visibleCount, visibleGroupedCount. apply Nat.add_le_mono_l.
  apply filter_length_mono. intros m. destruct (groupId m) as [x|]; [|done].
  destruct (Js.nonempty x); simpl; [|done].
  rewrite !negb_true_iff, !bool_decide_eq_false.
  intros Hx [Hin _]%elem_of_difference. done.
Qed.

(** X17.  Toggling a group never hides the last visible member: if some
    member is visible before, some member is visible after.  A collapsed
    group is always expanded; an expanded group is collapsed exactly when
    that leaves a member visible, and is otherwise left as it is. *)
Theorem toggle_keeps_a_member_visible (members : list TeamMember)
    (g : string) (prev : gset string) :
  ((0 < visibleCount members prev)%nat →
   (0 < visibleCount members (toggleGroupCollapse members g prev))%nat)
  ∧ (g ∈ prev → toggleGroupCollapse members g prev = prev ∖ {[g]})
  ∧ (g ∉ prev →
     toggleGroupCollapse members g prev
     = if decide (0 < visibleCount members (prev ∪ {[g]}))%nat
       then prev ∪ {[g]} else prev).
Proof.
  unfold toggleGroupCollapse. fold (visibleCount members (prev ∪ {[g]})).
  split; [|split].
  - intros Hvis. case_bool_decide as Hg.
    + pose proof (visibleCount_expand members g prev). lia.
    + destruct (Nat.ltb_spec 0 (visibleCount members (prev ∪ {[g]}))); done.
  - intros Hg. by rewrite bool_decide_eq_true_2.
  - intros Hg. rewrite bool_decide_eq_false_2 by done.
    destruct (Nat.ltb_spec 0 (visibleCount members (prev ∪ {[g]})));
      case_decide; try done; lia.
Qed.

Lemma toggle_keeps_a_member_visible_witness :
  (0 < visibleCount [Fixtures.ann; Fixtures.nora]
         (toggleGroupCollapse [Fixtures.ann; Fixtures.nora] "g1" ∅))%nat.
Proof.
  apply (toggle_keeps_a_member_visible [Fixtures.ann; Fixtures.nora] "g1" ∅).
  vm_compute. lia.
Defined.

(** X18.  Toggling the same group twice brings the collapsed set back,
    provided a member was visible to begin with. *)
Theorem toggle_twice_restores (members : list TeamMember)
    (g : string) (prev : gset string) :
  (0 < visibleCount members prev)%nat →
  toggleGroupCollapse members g (toggleGroupCollapse members g prev) = prev.
Proof.
  intros Hvis. unfold toggleGroupCollapse at 2.
  fold (visibleCount members (prev ∪ {[g]})).
  case_bool_decide as Hg.
  - unfold toggleGroupCollapse.
    rewrite bool_decide_eq_false_2.
    2: { intros [_ Hn]%elem_of_difference. apply Hn. by apply elem_of_singleton. }
    assert (Hback : prev ∖ {[g]} ∪ {[g]} = prev).
    { apply set_eq. intros x. rewrite elem_of_union, elem_of_difference,
        elem_of_singleton. destruct (decide (x = g)) as [->|]; intuition congruence. }
    rewrite Hback. fold (visibleCount members prev).
    destruct (Nat.ltb_spec 0 (visibleCount members prev)); [done|lia].
  - destruct (Nat.ltb_spec 0 (visibleCount members (prev ∪ {[g]}))) as [Hok|Hno].
    + unfold toggleGroupCollapse.
      rewrite bool_decide_eq_true_2.
      2: { apply elem_of_union. right. by apply elem_of_singleton. }
      apply set_eq. intros x. rewrite elem_of_difference, elem_of_union,
        elem_of_singleton. destruct (decide (x = g)) as [->|]; intuition congruence.
    + unfold toggleGroupCollapse. rewrite bool_decide_eq_false_2 by done.
      fold (visibleCount members (prev ∪ {[g]})).
      destruct (Nat.ltb_spec 0 (visibleCount members (prev ∪ {[g]}))); [lia|done].
Qed.

Lemma toggle_twice_restores_witness :
  toggleGroupCollapse [Fixtures.ann; Fixtures.kenji] "g1"
    (toggleGroupCollapse [Fixtures.ann; Fixtures.kenji] "g1" ∅) = ∅.
Proof.
  apply (toggle_twice_restores [Fixtures.ann; Fixtures.kenji] "g1" ∅).
  vm_compute. lia.
Defined.

(** With every member in one group, that group cannot be collapsed. *)
Example only_group_stays_open :
  toggleGroupCollapse [Fixtures.ann; Fixtures.nora] "g1" ∅ = ∅.
Proof. reflexivity. Qed.

End CollapseFacts.

(** ** Identity hook: what every sequence of operations keeps *)

Section IdentityInvariants.
Import CurrentTeamUser IdentitySteps.

Lemma step_consistent (st : CurrentTeamUserState) (a : Action) :
  SourceConsistent st → SourceConsistent (step st a).
Proof.
  unfold SourceConsistent. intros Hst.
  destruct a as [i src| |i|i|members]; simpl.
  - destruct (Js.truthy_str i); split; done.
  - done.
  - done.
  - destruct (Js.nonempty i); split; done.
  - unfold clearingEffect. destruct (_ && _); simpl; done.
Qed.

(** X19.  Through every sequence of hook operations the provenance tag is
    set exactly when a member id is selected: no selection ever lacks its
    source, and no source outlives its selection. *)
Theorem source_follows_selection (actions : list Action)
    (st : CurrentTeamUserState) :
  SourceConsistent st → SourceConsistent (run actions st).
Proof.
  revert st. induction actions as [|a actions IH]; intros st Hst; [done|].
  simpl. apply IH. by apply step_consistent.
Qed.

Lemma source_follows_selection_witness :
  SourceConsistent
    (run [AcceptSuggestion "m1"; DismissSuggestion "m2";
          ClearingEffect [Fixtures.kenji]; SetCurrentUser None explicit]
         DEFAULT_STATE).
Proof.
  apply source_follows_selection. split; reflexivity.
Defined.

Lemma step_keeps_dismissed (st : CurrentTeamUserState) (a : Action) (i : string) :
  i ∈ dismissedSuggestions st → i ∈ dismissedSuggestions (step st a).
Proof.
  intros Hi. destruct a as [j src| |j|j|members]; simpl; try done.
  - apply elem_of_app. by left.
  - unfold clearingEffect. by destruct (_ && _).
Qed.

Lemma run_keeps_dismissed (actions : list Action) (st : CurrentTeamUserState)
    (i : string) :
  i ∈ dismissedSuggestions st → i ∈ dismissedSuggestions (run actions st).
Proof.
  revert st. induction actions as [|a actions IH]; intros st Hi; [done|].
  simpl. apply IH. by apply step_keeps_dismissed.
Qed.

Lemma suggestedUser_not_dismissed (viewerTimezone : string)
    (members : list TeamMember) (st : CurrentTeamUserState) (m : TeamMember) :
  suggestedUser viewerTimezone members st = Some m →
  id m ∉ dismissedSuggestions st.
Proof.
  unfold suggestedUser. destruct (Js.truthy_str _); [done|].
  destruct (negb _); [done|].
  destruct (List.filter _ members) as [|x [|y rest]]; [done| |done].
  case_bool_decide; simpl; [done|]. by intros [= <-].
Qed.

(** X20.  A dismissal is permanent: once an id has been dismissed, no
    later sequence of selections, clearings and dismissals makes the hook
    suggest a member with that id again, for any member list and viewer
    timezone. *)
Theorem dismissed_member_is_never_suggested (actions : list Action)
    (st : CurrentTeamUserState) (i : string) (viewerTimezone : string)
    (members : list TeamMember) (m : TeamMember) :
  suggestedUser viewerTimezone members
    (run (DismissSuggestion i :: actions) st) = Some m →
  id m ≠ i.
Proof.
  intros Hs%suggestedUser_not_dismissed Hid. apply Hs. rewrite Hid.
  simpl. apply run_keeps_dismissed. simpl. apply elem_of_app. right. left.
Qed.

Lemma dismissed_member_is_never_suggested_witness :
  id Fixtures.kenji ≠ "m1"%string.
Proof.
  apply (dismissed_member_is_never_suggested
           [AcceptSuggestion "m2"; ClearCurrentUser] DEFAULT_STATE "m1"
           "Asia/Tokyo" [Fixtures.ann; Fixtures.kenji] Fixtures.kenji).
  reflexivity.
Defined.

(** X21.  The current user, when there is one, is a member of the list
    whose id is the stored one, and is what [isCurrentUser] answers for;
    while a current user or any stored id is there nothing is suggested;
    and once the clearing effect has run it has nothing left to do. *)
Theorem current_user_is_sound (viewerTimezone : string)
    (members : list TeamMember) (st : CurrentTeamUserState) :
  (∀ m, currentUser members st = Some m →
        m ∈ members ∧ memberId st = Some (id m)
        ∧ isCurrentUser st (id m) = true
        ∧ suggestedUser viewerTimezone members st = None)
  ∧ (∀ m, suggestedUser viewerTimezone members st = Some m →
          currentUser members st = None ∧ m ∈ members)
  ∧ clearingEffect members (runEffect (clearingEffect members st) st) = None.
Proof.
  split; [|split].
  - intros m. unfold currentUser, suggestedUser, isCurrentUser.
    destruct (memberId st) as [i|] eqn:Hid; [|done]. simpl.
    destruct (Js.nonempty i) eqn:Hi; [|done].
    intros [Hin%list_elem_of_In Hm%bool_decide_eq_true]%find_some.
    rewrite Hm. split; [done|]. split; [done|].
    by rewrite bool_decide_eq_true_2.
  - intros m Hs. unfold currentUser, suggestedUser in *.
    destruct (memberId st) as [i|]; simpl in *.
    + destruct (Js.nonempty i); [done|]. split; [done|].
      destruct (negb _); [done|].
      destruct (List.filter _ members) as [|x [|y rest]] eqn:Hf; [done| |done].
      destruct (negb _); [|done]. injection Hs as <-.
      assert (Hx : x ∈ List.filter
                (λ m, bool_decide (timezone m = viewerTimezone)) members)
        by (rewrite Hf; left).
      by apply elem_of_bool_filter in Hx as [? _].
    + split; [done|]. destruct (negb _); [done|].
      destruct (List.filter _ members) as [|x [|y rest]] eqn:Hf; [done| |done].
      destruct (negb _); [|done]. injection Hs as <-.
      assert (Hx : x ∈ List.filter
                (λ m, bool_decide (timezone m = viewerTimezone)) members)
        by (rewrite Hf; left).
      by apply elem_of_bool_filter in Hx as [? _].
  - unfold clearingEffect at 2.
    destruct (_ && _) eqn:E; simpl.
    + reflexivity.
    + unfold clearingEffect. by rewrite E.
Qed.

End IdentityInvariants.

(** ** Session storage: writing, clearing and reading back *)

Section SessionRoundTrip.
Import Json SessionStore SessionWrites.

Variable JSON_parse : string → Res JsonValue.
Variable JSON_stringify : JsonValue → string.
Variable quotaExceeded : string → string → bool.

Lemma sessionJson_ok (s : TeamSession) : isTeamSession (sessionJson s) = true.
Proof. by destruct s as [tok []]. Qed.

Lemma client_key_inj (a b : string) :
  Client.getTeamSessionKey a = Client.getTeamSessionKey b → a = b.
Proof.
  unfold Client.getTeamSessionKey, Client.TEAM_SESSION_PREFIX. simpl.
  intros H. by simplify_eq.
Qed.

Lemma read_items (st : Storage) (teamId : string) :
  denied st = false →
  Client.readTeamSession JSON_parse st teamId
  = match items st !! Client.getTeamSessionKey teamId with
    | Some raw =>
        if Js.nonempty raw then
          match JSON_parse raw with
          | Returned parsed =>
              Returned (if isTeamSession parsed then Some parsed else None)
          | Thrown _ => Returned None
          end
        else Returned None
    | None => Returned None
    end.
Proof.
  intros Hd. unfold Client.readTeamSession, getItem. rewrite Hd. simpl.
  destruct (items st !! _) as [raw|]; simpl; [|done].
  destruct (Js.nonempty raw); simpl; [|done].
  by destruct (JSON_parse raw).
Qed.

(** X22.  What [writeTeamSession] stored is what [readTeamSession] returns
    for the same team, provided the write went through and [JSON.parse]
    undoes [JSON.stringify] on the session; the sessions of other teams
    read as before. *)
Theorem session_write_then_read (st st' : Storage) (teamId : string)
    (s : TeamSession) :
  writeTeamSession JSON_stringify quotaExceeded st teamId s = Returned st' →
  JSON_parse (JSON_stringify (sessionJson s)) = Returned (sessionJson s) →
  JSON_stringify (sessionJson s) ≠ ""%string →
  Client.readTeamSession JSON_parse st' teamId = Returned (Some (sessionJson s))
  ∧ ∀ other, other ≠ teamId →
      Client.readTeamSession JSON_parse st' other
      = Client.readTeamSession JSON_parse st other.
Proof.
  unfold writeTeamSession, setItem. intros Hw Hparse Hne%nonempty_true.
  destruct (denied st) eqn:Hd; [done|].
  destruct (quotaExceeded _ _); [done|]. injection Hw as <-.
  split.
  - rewrite read_items by done. simpl. rewrite lookup_insert_eq, Hne, Hparse.
    by rewrite sessionJson_ok.
  - intros other Hother. rewrite !read_items by done. simpl.
    rewrite lookup_insert_ne; [done|].
    intros Hk%client_key_inj. congruence.
Qed.

(** X23.  After [clearTeamSession] went through, the team has no session
    to read, even if one was stored; the sessions of other teams read as
    before. *)
Theorem session_clear_then_read (st st' : Storage) (teamId : string) :
  clearTeamSession st teamId = Returned st' →
  Client.readTeamSession JSON_parse st' teamId = Returned None
  ∧ ∀ other, other ≠ teamId →
      Client.readTeamSession JSON_parse st' other
      = Client.readTeamSession JSON_parse st other.
Proof.
  unfold clearTeamSession, removeItem. intros Hc.
  destruct (denied st) eqn:Hd; [done|]. injection Hc as <-.
  split.
  - rewrite read_items by done. simpl. by rewrite lookup_delete_eq.
  - intros other Hother. rewrite !read_items by done. simpl.
    rewrite lookup_delete_ne; [done|].
    intros Hk%client_key_inj. congruence.
Qed.

End SessionRoundTrip.

Section SessionRoundTripExamples.
Import Json SessionStore SessionWrites Fixtures.

Lemma session_write_then_read_witness :
  Client.readTeamSession parseFixture
    (mkStorage (<[Client.getTeamSessionKey "t1" := adminSessionText]> ∅) false)
    "t1"
  = Returned (Some adminSession).
Proof.
  apply (session_write_then_read parseFixture stringifyFixture (λ _ _, false)
           (mkStorage ∅ false) _ "t1" (mkSession "tok-1" admin)).
  - reflexivity.
  - reflexivity.
  - discriminate.
Defined.

Lemma session_clear_then_read_witness :
  Client.readTeamSession parseFixture
    (mkStorage (delete (Client.getTeamSessionKey "t1")
                  (<[Client.getTeamSessionKey "t1" := adminSessionText]> ∅))
               false) "t1"
  = Returned None.
Proof.
  apply (session_clear_then_read parseFixture
           (mkStorage (<[Client.getTeamSessionKey "t1" := adminSessionText]> ∅)
                      false) _ "t1").
  reflexivity.
Defined.

(** Writing, unlike reading, lets the storage error through. *)
Example write_to_denied_storage_throws :
  writeTeamSession stringifyFixture (λ _ _, false) (mkStorage ∅ true)
                   "t1" (mkSession "tok-1" admin)
  = Thrown (OtherError "SecurityError").
Proof. reflexivity. Qed.

End SessionRoundTripExamples.

(** ** Recently visited teams *)

Section VisitedTeamsFacts.
Import VisitedTeams.

Lemma isTeam_true (teamId : string) (t : VisitedTeam) :
  isTeam teamId t = true ↔ vid t = teamId.
Proof. unfold isTeam. by rewrite bool_decide_eq_true. Qed.

Lemma save_unfold (now teamId : string) (count : Z) (name_ : option string)
    (teams : list VisitedTeam) :
  ∃ v, saveVisitedTeam now teamId count name_ teams
       = v :: take 9 (List.filter (λ t, negb (isTeam teamId t)) teams)
       ∧ vid v = teamId ∧ vmemberCount v = count ∧ lastVisited v = now
       ∧ vname v = match name_ with
                   | Some n => n
                   | None => getTeamName teams teamId
                   end.
Proof. eexists. split; [reflexivity|]. done. Qed.

Lemma others_not_team (teamId : string) (teams : list VisitedTeam) (n : nat)
    (t : VisitedTeam) :
  t ∈ take n (List.filter (λ t, negb (isTeam teamId t)) teams) →
  t ∈ teams ∧ vid t ≠ teamId.
Proof.
  intros (k & Hk & _)%elem_of_take.
  apply list_elem_of_lookup_2, elem_of_bool_filter in Hk as [Hin Hne].
  split; [done|]. apply negb_true_iff in Hne.
  intros Hid%isTeam_true. congruence.
Qed.

Lemma find_isTeam_None (teamId : string) (l : list VisitedTeam) :
  (∀ t, t ∈ l → vid t ≠ teamId) → find (isTeam teamId) l = None.
Proof.
  intros Hall. destruct (find _ l) as [t|] eqn:E; [|done].
  apply find_some in E as [Hin%list_elem_of_In Ht%isTeam_true].
  by apply Hall in Hin.
Qed.

Lemma find_isTeam_others (teamId other : string) (teams : list VisitedTeam) :
  other ≠ teamId →
  find (isTeam other) (List.filter (λ t, negb (isTeam teamId t)) teams)
  = find (isTeam other) teams.
Proof.
  intros Hne. induction teams as [|t teams IH]; [done|]. simpl.
  destruct (isTeam teamId t) eqn:Et; simpl.
  - apply isTeam_true in Et.
    assert (isTeam other t = false) as ->; [|done].
    apply bool_decide_eq_false. congruence.
  - destruct (isTeam other t); [done|exact IH].
Qed.

(** X24.  A saved visit goes to the front with the given member count and
    time; the list never exceeds ten entries; the visited team has exactly
    one entry afterwards, whatever was stored; unique ids stay unique; and
    nothing but the visited team is added. *)
Theorem saved_visit_is_first_and_bounded (now teamId : string) (count : Z)
    (name_ : option string) (teams : list VisitedTeam) :
  let saved := saveVisitedTeam now teamId count name_ teams in
  (length saved ≤ 10)%nat
  ∧ (length saved ≤ S (length teams))%nat
  ∧ (∃ v, head saved = Some v ∧ vid v = teamId ∧ vmemberCount v = count
          ∧ lastVisited v = now)
  ∧ length (List.filter (isTeam teamId) saved) = 1%nat
  ∧ (NoDup (vid <$> teams) → NoDup (vid <$> saved))
  ∧ (∀ t, t ∈ saved → vid t = teamId ∨ t ∈ teams).
Proof.
  intros saved. subst saved.
  destruct (save_unfold now teamId count name_ teams)
    as (v & -> & Hid & Hcount & Hnow & _).
  set (others := List.filter (λ t, negb (isTeam teamId t)) teams).
  assert (Hlen : (length others ≤ length teams)%nat).
  { unfold others. clear. induction teams as [|t l IH]; [done|]. simpl.
    destruct (negb _); simpl; lia. }
  split; [simpl; rewrite length_take; lia|].
  split; [simpl; rewrite length_take; lia|].
  split; [by exists v|]. split; [|split].
  - simpl. rewrite (proj2 (isTeam_true teamId v) Hid). simpl. f_equal.
    apply length_zero_iff_nil.
    destruct (List.filter _ (take 9 others)) as [|t rest] eqn:E; [done|].
    assert (Ht : t ∈ List.filter (isTeam teamId) (take 9 others))
      by (rewrite E; left).
    apply elem_of_bool_filter in Ht as [[_ Hne]%others_not_team Hyes%isTeam_true].
    done.
  - intros Hnd. rewrite fmap_cons. apply NoDup_cons. split.
    + intros (t & Ht & [_ Hne]%others_not_team)%list_elem_of_fmap. congruence.
    + rewrite fmap_take. eapply sublist_NoDup; [|apply sublist_take].
      by apply NoDup_fmap_bool_filter.
  - intros t [->|Ht]%elem_of_cons; [by left|].
    right. by apply others_not_team in Ht as [? _].
Qed.

(** X25.  [getTeamName] after a save returns the name that was passed; a
    save without a name keeps the name the team had (or the empty name of
    a team never seen). *)
Theorem saved_visit_name (now teamId : string) (count : Z)
    (teams : list VisitedTeam) :
  (∀ n, getTeamName (saveVisitedTeam now teamId count (Some n) teams) teamId = n)
  ∧ getTeamName (saveVisitedTeam now teamId count None teams) teamId
    = getTeamName teams teamId.
Proof.
  split.
  - intros n. destruct (save_unfold now teamId count (Some n) teams)
      as (v & -> & Hid & _ & _ & Hname).
    unfold getTeamName. simpl. by rewrite (proj2 (isTeam_true teamId v) Hid).
  - destruct (save_unfold now teamId count None teams)
      as (v & -> & Hid & _ & _ & Hname).
    unfold getTeamName at 1. simpl.
    by rewrite (proj2 (isTeam_true teamId v) Hid).
Qed.

(** X26.  While fewer than ten teams are stored, saving a visit loses no
    other team: each stays in the list and keeps its name. *)
Theorem visit_keeps_other_teams (now teamId : string) (count : Z)
    (name_ : option string) (teams : list VisitedTeam) :
  (length teams < 10)%nat →
  let saved := saveVisitedTeam now teamId count name_ teams in
  (∀ t, t ∈ teams → vid t ≠ teamId → t ∈ saved)
  ∧ (∀ other, other ≠ teamId → getTeamName saved other = getTeamName teams other).
Proof.
  intros Hlen saved. subst saved.
  destruct (save_unfold now teamId count name_ teams) as (v & -> & Hid & _).
  set (others := List.filter (λ t, negb (isTeam teamId t)) teams).
  assert (Hfit : take 9 others = others).
  { apply take_ge. transitivity (length teams); [|lia].
    unfold others. clear. induction teams as [|t l IH]; [done|]. simpl.
    destruct (negb _); simpl; lia. }
  rewrite Hfit. split.
  - intros t Hin Hne. right. apply elem_of_bool_filter. split; [done|].
    apply negb_true_iff, bool_decide_eq_false. done.
  - intros other Hne. unfold getTeamName. simpl.
    assert (isTeam other v = false) as ->.
    { apply bool_decide_eq_false. congruence. }
    unfold others. by rewrite find_isTeam_others.
Qed.

Lemma visit_keeps_other_teams_witness :
  getTeamName
    (saveVisitedTeam "2025-01-04T10:00:00.000Z" "t9" 2 (Some "Initech"%string)
                     Fixtures.visits) "t2"
  = "Globex"%string.
Proof.
  apply (visit_keeps_other_teams "2025-01-04T10:00:00.000Z" "t9" 2
           (Some "Initech"%string) Fixtures.visits).
  - simpl. lia.
  - discriminate.
Defined.

(** X27.  In a list with unique ids, a team at position 9 or later is
    forgotten when a new team is visited: it is no longer in the list and
    its name reads as empty. *)
Theorem tenth_visit_is_evicted (now teamId : string) (count : Z)
    (name_ : option string) (teams : list VisitedTeam) (k : nat)
    (t : VisitedTeam) :
  NoDup (vid <$> teams) → teamId ∉ vid <$> teams →
  teams !! k = Some t → (9 ≤ k)%nat →
  let saved := saveVisitedTeam now teamId count name_ teams in
  (t ∉ saved) ∧ getTeamName saved (vid t) = ""%string.
Proof.
  intros Hnd Hnew Hk Hlate saved. subst saved.
  destruct (save_unfold now teamId count name_ teams) as (v & -> & Hid & _).
  assert (Hsame : List.filter (λ t, negb (isTeam teamId t)) teams = teams).
  { clear Hk Hnd. induction teams as [|x l IH]; [done|]. simpl.
    rewrite fmap_cons in Hnew. apply not_elem_of_cons in Hnew as [Hx Hl].
    assert (isTeam teamId x = false) as ->.
    { apply bool_decide_eq_false. congruence. }
    simpl. by rewrite IH. }
  rewrite Hsame.
  assert (Hother : ∀ x, x ∈ v :: take 9 teams → vid x ≠ vid t).
  { intros x [->|(j & Hj & Hlt)%elem_of_take]%elem_of_cons Heq.
    - apply Hnew. rewrite <- Hid, Heq.
      apply list_elem_of_fmap_2. by apply list_elem_of_lookup_2 in Hk.
    - assert (j = k); [|lia].
      apply (NoDup_lookup (vid <$> teams) j k (vid t)); [done| |].
      + by rewrite list_lookup_fmap, Hj, <- Heq.
      + by rewrite list_lookup_fmap, Hk. }
  split.
  - intros Hin. by apply (Hother t Hin).
  - unfold getTeamName. by rewrite find_isTeam_None.
Qed.

Lemma tenth_visit_is_evicted_witness :
  getTeamName
    (saveVisitedTeam "2025-01-04T10:00:00.000Z" "new" 2 None Fixtures.tenVisits)
    "9"
  = ""%string.
Proof.
  apply (tenth_visit_is_evicted "2025-01-04T10:00:00.000Z" "new" 2 None
           Fixtures.tenVisits 9
           (mkVisited "9" "Team 9" 1 "2025-01-01T10:00:00.000Z")).
  - apply (bool_decide_unpack _). vm_compute. exact I.
  - apply (bool_decide_unpack _). vm_compute. exact I.
  - reflexivity.
  - lia.
Defined.

Lemma find_isTeam_renamed (teamId other n : string) (teams : list VisitedTeam) :
  vname <$> find (isTeam other) (updateTeamName teamId n teams)
  = (λ t, if isTeam teamId t then n else vname t)
      <$> find (isTeam other) teams.
Proof.
  unfold updateTeamName. induction teams as [|t teams IH]; [done|].
  rewrite fmap_cons. simpl.
  destruct (isTeam teamId t) eqn:Et; simpl.
  - unfold isTeam at 1. simpl. fold (isTeam other t).
    destruct (isTeam other t); simpl; [by rewrite Et|exact IH].
  - destruct (isTeam other t); simpl; [by rewrite Et|exact IH].
Qed.

(** X28.  Renaming changes the name [getTeamName] returns for that team,
    if it is stored, and for no other team; it adds no entry for a team
    that is not stored.  After [removeVisitedTeam] the team's name reads
    as empty and the other teams keep theirs. *)
Theorem rename_and_forget (teamId n : string) (teams : list VisitedTeam) :
  getTeamName (updateTeamName teamId n teams) teamId
  = (if decide (teamId ∈ vid <$> teams) then n else ""%string)
  ∧ (∀ other, other ≠ teamId →
       getTeamName (updateTeamName teamId n teams) other
       = getTeamName teams other)
  ∧ vid <$> updateTeamName teamId n teams = vid <$> teams
  ∧ getTeamName (removeVisitedTeam teamId teams) teamId = ""%string
  ∧ (∀ other, other ≠ teamId →
       getTeamName (removeVisitedTeam teamId teams) other
       = getTeamName teams other).
Proof.
  assert (Hname : ∀ l other, getTeamName l other
                  = default ""%string (vname <$> find (isTeam other) l)).
  { intros l other. unfold getTeamName. by destruct (find _ l). }
  split; [|split; [|split; [|split]]].
  - rewrite Hname, find_isTeam_renamed.
    destruct (find (isTeam teamId) teams) as [t|] eqn:E; simpl.
    + apply find_some in E as [Hin%list_elem_of_In Ht].
      rewrite Ht. apply isTeam_true in Ht.
      rewrite decide_True; [done|]. rewrite <- Ht. by apply list_elem_of_fmap_2.
    + rewrite decide_False; [done|].
      intros (t & -> & Hin%list_elem_of_In)%list_elem_of_fmap.
      pose proof (find_none _ _ E t Hin) as Hno.
      by rewrite (proj2 (isTeam_true (vid t) t)) in Hno.
  - intros other Hne. rewrite !Hname, find_isTeam_renamed.
    destruct (find (isTeam other) teams) as [t|] eqn:E; [|done]. simpl.
    apply find_some in E as [_ Ht%isTeam_true].
    assert (isTeam teamId t = false) as ->; [|done].
    apply bool_decide_eq_false. congruence.
  - unfold updateTeamName. rewrite <- list_fmap_compose.
    apply list_fmap_ext. intros _ t _. simpl. by destruct (isTeam teamId t).
  - unfold getTeamName, removeVisitedTeam. rewrite find_isTeam_None; [done|].
    intros t [_ Ht]%elem_of_bool_filter Hid.
    apply negb_true_iff in Ht. apply isTeam_true in Hid. congruence.
  - intros other Hne. unfold getTeamName, removeVisitedTeam.
    by rewrite find_isTeam_others.
Qed.

End VisitedTeamsFacts.

(** ** The two select elements of the visualizer *)

Section SelectOptions.
Import Selection.

Lemma active_second_differs (members : list TeamMember)
    (selectedAId selectedBId : option string) (y : string) :
  snd (activeIds members selectedAId selectedBId) = Some y →
  fst (activeIds members selectedAId selectedBId) ≠ Some y.
Proof.
  unfold activeIds. cbn [fst snd].
  set (ids := id <$> members).
  set (a := if validSelection selectedAId ids then selectedAId else head ids).
  case_bool_decide as Heq.
  - by intros [_ ?]%firstOther_Some.
  - intros Hy. congruence.
Qed.

(** X30.  With the active pair, the two selects never offer the member
    picked in the other one, each offers its own pick, and every member is
    offered by at least one of them. *)
Theorem selects_exclude_each_other (members : list TeamMember)
    (selectedAId selectedBId : option string) :
  let a := fst (activeIds members selectedAId selectedBId) in
  let b := snd (activeIds members selectedAId selectedBId) in
  (∀ m, m ∈ optionsA members a b → m ∈ members ∧ Some (id m) ≠ b)
  ∧ (∀ m, m ∈ optionsB members a b → m ∈ members ∧ Some (id m) ≠ a)
  ∧ (∀ m, m ∈ members → Some (id m) = a → m ∈ optionsA members a b)
  ∧ (∀ m, m ∈ members → Some (id m) = b → m ∈ optionsB members a b)
  ∧ (∀ m, m ∈ members → m ∈ optionsA members a b ∨ m ∈ optionsB members a b).
Proof.
  intros a b.
  assert (Hab : ∀ y, b = Some y → a ≠ Some y)
    by (intros y; apply active_second_differs).
  unfold optionsA, optionsB. split; [|split; [|split; [|split]]].
  - intros m [Hin Hm]%elem_of_bool_filter. split; [done|].
    apply orb_true_iff in Hm as [Hm%bool_decide_eq_true|Hm].
    + intros Hb. symmetry in Hb. apply (Hab _ Hb). done.
    + by apply negb_true_iff, bool_decide_eq_false in Hm.
  - intros m [Hin Hm]%elem_of_bool_filter. split; [done|].
    apply orb_true_iff in Hm as [Hm%bool_decide_eq_true|Hm].
    + intros Ha. apply (Hab (id m)); done.
    + by apply negb_true_iff, bool_decide_eq_false in Hm.
  - intros m Hin Ha. apply elem_of_bool_filter. split; [done|].
    by rewrite bool_decide_eq_true_2.
  - intros m Hin Hb. apply elem_of_bool_filter. split; [done|].
    by rewrite bool_decide_eq_true_2.
  - intros m Hin. destruct (decide (Some (id m) = b)) as [Hb|Hb].
    + right. apply elem_of_bool_filter. split; [done|].
      by rewrite bool_decide_eq_true_2.
    + left. apply elem_of_bool_filter. split; [done|].
      rewrite (bool_decide_eq_false_2 (Some (id m) = b)) by done.
      apply orb_true_r.
Qed.

End SelectOptions.
